(** * rclone-ui: path suggestions (PathFinder.tsx) and the unmount protocol

    A shallow embedding of
      - [fetchSuggestions] and [handleBrowse] of src/components/PathFinder.tsx,
      - [unmount] of the mount helpers,
    together with the JavaScript string and array primitives they call.

    Strings are sequences of characters ([string] of the Standard Library);
    the asynchronous functions are programs over a small free monad whose
    nodes are the state updates and the awaited calls, so that one program
    can be run alone against the answers of its environment, or suspended
    at an [await] and interleaved with others by an event loop. *)

From Stdlib Require Import String Ascii List Bool Arith ZArith Lia.
From Stdlib Require Import DecimalString.
Import ListNotations.
Local Open Scope string_scope.
Local Open Scope list_scope.

(** ** JavaScript string and array primitives *)

Module Js.

(** [s.startsWith(p)] *)
Definition startsWith (p s : string) : bool := String.prefix p s.

(** [s.includes(sub)]: [sub] starts at some position of [s]. *)
Fixpoint includes (sub s : string) : bool :=
  startsWith sub s ||
  match s with
  | EmptyString => false
  | String _ s' => includes sub s'
  end.

(** [s.endsWith(suffix)] *)
Fixpoint endsWith (suffix s : string) : bool :=
  String.eqb suffix s ||
  match s with
  | EmptyString => false
  | String _ s' => endsWith suffix s'
  end.

(** [s.slice(0, -1)] on a string: all but the last character. *)
Fixpoint dropLast (s : string) : string :=
  match s with
  | EmptyString => EmptyString
  | String _ EmptyString => EmptyString
  | String c s' => String c (dropLast s')
  end.

(** [c] lowered when it is one of [A-Z]; [toLowerCase] on the ASCII range. *)
Definition lowerChar (c : ascii) : ascii :=
  let n := nat_of_ascii c in
  if Nat.leb 65 n && Nat.leb n 90 then ascii_of_nat (n + 32) else c.

Fixpoint toLowerCase (s : string) : string :=
  match s with
  | EmptyString => EmptyString
  | String c s' => String (lowerChar c) (toLowerCase s')
  end.

(** [s.split(sep)] for a non-empty separator: cut at the occurrences of
    [sep] found from left to right, each search resuming after the previous
    occurrence.  [skip] counts the characters of the occurrence being
    stepped over and [cur] is the piece read so far. *)
Fixpoint split_from (sep : string) (skip : nat) (cur s : string) : list string :=
  match s with
  | EmptyString => [cur]
  | String c s' =>
      match skip with
      | S skip' => split_from sep skip' cur s'
      | O =>
          if startsWith sep s
          then cur :: split_from sep (String.length sep - 1) EmptyString s'
          else split_from sep 0 (cur ++ String c EmptyString)%string s'
      end
  end.

Definition split (sep s : string) : list string := split_from sep 0 EmptyString s.

(** [parts.join(sep)] *)
Fixpoint join (sep : string) (parts : list string) : string :=
  match parts with
  | [] => EmptyString
  | [p] => p
  | p :: rest => (p ++ sep ++ join sep rest)%string
  end.

(** [parts.slice(0, -1)]: the array without its last element. *)
Definition sliceInit {A : Type} (parts : list A) : list A := removelast parts.

(** [!s] for a string: only the empty string is falsy. *)
Definition falsy (s : string) : bool :=
  match s with
  | EmptyString => true
  | _ => false
  end.

End Js.

(** ** Data model *)

(** The two path inputs: the literals ['source'] and ['dest']. *)
Inductive Field : Type := source | dest.

(** An object [{ source: A; dest: A }]. *)
Record PerField (A : Type) : Type := { at_source : A; at_dest : A }.
Arguments at_source {A} _.
Arguments at_dest {A} _.

(** [r[field]] *)
Definition get {A : Type} (field : Field) (r : PerField A) : A :=
  match field with
  | source => at_source r
  | dest => at_dest r
  end.

(** [{ ...prev, [field]: v }] *)
Definition set {A : Type} (field : Field) (v : A) (prev : PerField A) : PerField A :=
  match field with
  | source => {| at_source := v; at_dest := at_dest prev |}
  | dest => {| at_source := at_source prev; at_dest := v |}
  end.

Definition other (field : Field) : Field :=
  match field with
  | source => dest
  | dest => source
  end.

(** One suggestion: [{ IsDir, Name, Path }]. *)
Record Suggestion : Type := { IsDir : bool; Name : string; Path : string }.

(** An entry of [readDir] (plugin-fs). *)
Record DirEntry : Type := { name : string; isDirectory : bool; isSymlink : bool }.

(** An item of [listPath]; only [IsDir] and [Path] are read. *)
Module Item.
Record t : Type := { IsDir : bool; Path : string }.
End Item.

(** A thrown value: an [Error] with its message, or anything else. *)
Inductive Thrown : Type :=
| Error (message : string)
| NonError.

(** The component's state: the two path props ([sourcePath], [destPath],
    written through [setSourcePath] and [setDestPath]), the three [useState]
    cells, and whether the windows are locked. *)
Record State : Type := {
  sourcePath : string;
  destPath : string;
  suggestions : PerField (list Suggestion);
  isLoading : PerField bool;
  error : PerField (option string);
  windowsLocked : bool
}.

Definition initialState (sourcePath destPath : string) : State :=
  {| sourcePath := sourcePath;
     destPath := destPath;
     suggestions := {| at_source := []; at_dest := [] |};
     isLoading := {| at_source := false; at_dest := false |};
     error := {| at_source := None; at_dest := None |};
     windowsLocked := false |}.

(** The text of a field. *)
Definition rawText (field : Field) (st : State) : string :=
  match field with
  | source => sourcePath st
  | dest => destPath st
  end.

(** ** Asynchronous programs *)

(** The calls that are awaited. *)
Inductive Call : Type :=
| readDir (path : string)
| listPath (remote path : string) (noModTime noMimeType : bool)
| lockWindows
| open (directory multiple : bool) (defaultPath : string)
| unlockWindows.

(** What a call's promise is fulfilled with. *)
Inductive Value : Type :=
| VEntries (entries : list DirEntry)
| VItems (items : list Item.t)
| VSelected (selected : option string)
| VUndefined.

Inductive Settled : Type :=
| Fulfilled (v : Value)
| Rejected (err : Thrown).

(** A program: it returns, throws, updates the state, or awaits a call and
    continues with what the promise settled to. *)
Inductive Prog (A : Type) : Type :=
| Ret (a : A)
| Throw (err : Thrown)
| Update (u : State -> State) (k : Prog A)
| Await (c : Call) (k : Settled -> Prog A).
Arguments Ret {A} a.
Arguments Throw {A} err.
Arguments Update {A} u k.
Arguments Await {A} c k.

Fixpoint bind {A B : Type} (m : Prog A) (f : A -> Prog B) : Prog B :=
  match m with
  | Ret a => f a
  | Throw err => Throw err
  | Update u k => Update u (bind k f)
  | Await c k => Await c (fun r => bind (k r) f)
  end.

(** [try { m } catch (err) { handler err }] *)
Fixpoint try_catch {A : Type} (m : Prog A) (handler : Thrown -> Prog A) : Prog A :=
  match m with
  | Ret a => Ret a
  | Throw err => handler err
  | Update u k => Update u (try_catch k handler)
  | Await c k => Await c (fun r => try_catch (k r) handler)
  end.

(** [try { m } finally { fin }]: [fin] runs however [m] ends. *)
Fixpoint try_finally {A : Type} (m : Prog A) (fin : Prog unit) : Prog A :=
  match m with
  | Ret a => bind fin (fun _ => Ret a)
  | Throw err => bind fin (fun _ => Throw err)
  | Update u k => Update u (try_finally k fin)
  | Await c k => Await c (fun r => try_finally (k r) fin)
  end.

Declare Scope prog_scope.
Delimit Scope prog_scope with prog.
Notation "x <- m ;; k" := (bind m (fun x => k))
  (at level 61, m at next level, right associativity) : prog_scope.
Notation "m ;; k" := (bind m (fun _ => k))
  (at level 61, right associativity) : prog_scope.
Local Open Scope prog_scope.

Definition update (u : State -> State) : Prog unit := Update u (Ret tt).

(** [await readDir(path)] *)
Definition awaitReadDir (path : string) : Prog (list DirEntry) :=
  Await (readDir path) (fun r =>
    match r with
    | Fulfilled (VEntries entries) => Ret entries
    | Fulfilled _ => Throw NonError
    | Rejected err => Throw err
    end).

(** [await listPath(remote, path, { noModTime: true, noMimeType: true })] *)
Definition awaitListPath (remote path : string) : Prog (list Item.t) :=
  Await (listPath remote path true true) (fun r =>
    match r with
    | Fulfilled (VItems items) => Ret items
    | Fulfilled _ => Throw NonError
    | Rejected err => Throw err
    end).

(** [await open({ directory: true, multiple: false, defaultPath })] *)
Definition awaitOpen (defaultPath : string) : Prog (option string) :=
  Await (open true false defaultPath) (fun r =>
    match r with
    | Fulfilled (VSelected selected) => Ret selected
    | Fulfilled _ => Throw NonError
    | Rejected err => Throw err
    end).

Definition awaitUnit (c : Call) : Prog unit :=
  Await c (fun r =>
    match r with
    | Fulfilled _ => Ret tt
    | Rejected err => Throw err
    end).

(** The state setters, called with an updater [(prev) => ...]. *)
Definition setSuggestions (f : PerField (list Suggestion) -> PerField (list Suggestion))
  : Prog unit :=
  update (fun st =>
    {| sourcePath := sourcePath st; destPath := destPath st;
       suggestions := f (suggestions st);
       isLoading := isLoading st; error := error st;
       windowsLocked := windowsLocked st |}).

Definition setIsLoading (f : PerField bool -> PerField bool) : Prog unit :=
  update (fun st =>
    {| sourcePath := sourcePath st; destPath := destPath st;
       suggestions := suggestions st;
       isLoading := f (isLoading st); error := error st;
       windowsLocked := windowsLocked st |}).

Definition setError (f : PerField (option string) -> PerField (option string))
  : Prog unit :=
  update (fun st =>
    {| sourcePath := sourcePath st; destPath := destPath st;
       suggestions := suggestions st;
       isLoading := isLoading st; error := f (error st);
       windowsLocked := windowsLocked st |}).

Definition setSourcePath (path : string) : Prog unit :=
  update (fun st =>
    {| sourcePath := path; destPath := destPath st;
       suggestions := suggestions st;
       isLoading := isLoading st; error := error st;
       windowsLocked := windowsLocked st |}).

Definition setDestPath (path : string) : Prog unit :=
  update (fun st =>
    {| sourcePath := sourcePath st; destPath := path;
       suggestions := suggestions st;
       isLoading := isLoading st; error := error st;
       windowsLocked := windowsLocked st |}).

Definition setWindowsLocked (b : bool) (st : State) : State :=
  {| sourcePath := sourcePath st; destPath := destPath st;
     suggestions := suggestions st;
     isLoading := isLoading st; error := error st;
     windowsLocked := b |}.

(** ** The component: PathFinder.tsx *)

Section PathFinder.

(** [platform()] of plugin-os. *)
Variable platform : string.

(** [isRemotePath] of lib/fs, which is imported by the component. *)
Variable isRemotePath : string -> bool.

(** [useStore((state) => state.remotes)]: the names of the known remotes. *)
Variable remotes : list string.

Definition slashSymbol : string :=
  if String.eqb platform "windows" then "\" else "/".

(** The inner [try]/[catch] of the local branch: the listing of [path] as it
    is and, when that throws, of [path] without its last segment; the second
    failure is caught and leaves [localEntries] empty.  The result is the
    final value of the variables [localEntries] and [cleanedPath]. *)
Definition readLocal (path : string) : Prog (list DirEntry * string) :=
  try_catch
    (localEntries <- awaitReadDir path ;;
     Ret (localEntries, path))
    (fun _ =>
       let cleanedPath :=
         Js.join slashSymbol (Js.sliceInit (Js.split slashSymbol path)) in
       try_catch
         (localEntries <- awaitReadDir cleanedPath ;;
          Ret (localEntries, cleanedPath))
         (fun _ => Ret ([], cleanedPath))).

Definition localSuggestion (cleanedPath extraSlash : string) (entry : DirEntry)
  : Suggestion :=
  {| IsDir := isDirectory entry;
     Name := name entry;
     Path := (cleanedPath ++ extraSlash ++ name entry)%string |}.

Definition remoteSuggestion (remote : string) (item : Item.t) : Suggestion :=
  {| IsDir := Item.IsDir item;
     Name := Item.Path item;
     Path := (remote ++ ":/" ++ Item.Path item)%string |}.

Definition remoteItem (remote : string) : Suggestion :=
  {| IsDir := true;
     Name := (remote ++ ":/")%string;
     Path := (remote ++ ":/")%string |}.

(** The remote branch: [path.split(':/')] destructured into [remote] and
    [pathParts]. *)
Definition fetchRemote (path : string) (field : Field) : Prog unit :=
  match Js.split ":/" path with
  | [] => Throw (Error "Invalid remote path format")
  | remote :: pathParts =>
      if Js.falsy remote then Throw (Error "Invalid remote path format")
      else
        let remotePath := Js.join "/" pathParts in
        let remotePath :=
          if Js.endsWith "/" remotePath then Js.dropLast remotePath else remotePath in
        items <- awaitListPath remote remotePath ;;
        let suggestionsWithRemote := map (remoteSuggestion remote) items in
        setSuggestions (fun prev => set field suggestionsWithRemote prev)
  end.

Definition errorMessage (err : Thrown) : string :=
  match err with
  | Error message => message
  | NonError => "Failed to fetch suggestions"
  end.

(** [fetchSuggestions(path, field)].  The calls of [console.error] are left
    out: they touch nothing that is modelled. *)
Definition fetchSuggestions (path : string) (field : Field) : Prog unit :=
  setIsLoading (fun prev => set field true prev) ;;
  setError (fun prev => set field None prev) ;;
  try_finally
    (try_catch
       (if Js.falsy path then
          let remoteItems := map remoteItem remotes in
          setSuggestions (fun prev => set field remoteItems prev)
        else if negb (isRemotePath path) then
          read <- readLocal path ;;
          let '(localEntries, cleanedPath) := read in
          let extraSlash :=
            if Js.endsWith slashSymbol cleanedPath then "" else slashSymbol in
          let localSuggestions :=
            map (localSuggestion cleanedPath extraSlash)
                (filter (fun entry => negb (isSymlink entry)) localEntries) in
          setSuggestions (fun prev => set field localSuggestions prev)
        else fetchRemote path field)
       (fun err =>
          setError (fun prev => set field (Some (errorMessage err)) prev) ;;
          setSuggestions (fun prev => set field [] prev)))
    (setIsLoading (fun prev => set field false prev)).

(** [if (selected)]: a selection that is neither [null] nor empty. *)
Definition truthy (selected : option string) : option string :=
  match selected with
  | Some s => if Js.falsy s then None else Some s
  | None => None
  end.

(** [handleBrowse(field)], closed over the [sourcePath] and [destPath] of
    the render that created it. *)
Definition handleBrowse (sourcePath destPath : string) (field : Field) : Prog unit :=
  try_catch
    (awaitUnit lockWindows ;;
     selected <- awaitOpen (match field with
                            | source => sourcePath
                            | dest => destPath
                            end) ;;
     awaitUnit unlockWindows ;;
     match truthy selected with
     | Some selected =>
         match field with
         | source => setSourcePath selected
         | dest => setDestPath selected
         end
     | None => Ret tt
     end)
    (fun _ =>
       setError (fun prev => set field (Some "Failed to open folder picker") prev)).

End PathFinder.

(** Modelled from the spec: [isRemotePath] of lib/fs is not part of the
    sources at hand; the spec's classifier takes a path for a remote address
    when it contains the separator [":/"]. *)
Definition isRemotePath (path : string) : bool := Js.includes ":/" path.

(** ** Running a program *)

(** An answer the environment may give to a call. *)
Definition accepts (c : Call) (r : Settled) : bool :=
  match r, c with
  | Rejected _, _ => true
  | Fulfilled (VEntries _), readDir _ => true
  | Fulfilled (VItems _), listPath _ _ _ _ => true
  | Fulfilled (VSelected _), open _ _ _ => true
  | Fulfilled VUndefined, (lockWindows | unlockWindows) => true
  | Fulfilled _, _ => false
  end.

(** Modelled from the spec: [lockWindows] and [unlockWindows] of lib/window
    are not part of the sources at hand; the spec has them as an opaque
    exclusivity lock over the user interface.  A call that is fulfilled takes,
    respectively gives back, the lock; a call that is rejected leaves it as
    it was.  The other calls only read. *)
Definition effect (c : Call) (r : Settled) (st : State) : State :=
  match c, r with
  | lockWindows, Fulfilled _ => setWindowsLocked true st
  | unlockWindows, Fulfilled _ => setWindowsLocked false st
  | _, _ => st
  end.

(** How a call of an asynchronous function ended. *)
Inductive Completion (A : Type) : Type :=
| Returned (a : A)
| Threw (err : Thrown).
Arguments Returned {A} a.
Arguments Threw {A} err.

(** [run p answers st]: [p] alone, from [st], each [await] settled by the
    next of [answers]; [None] when an answer is missing or is not one the
    call can give. *)
Fixpoint run {A : Type} (p : Prog A) (answers : list Settled) (st : State)
  : option (Completion A * State) :=
  match p with
  | Ret a => Some (Returned a, st)
  | Throw err => Some (Threw err, st)
  | Update u k => run k answers (u st)
  | Await c k =>
      match answers with
      | r :: answers' =>
          if accepts c r then run (k r) answers' (effect c r st) else None
      | [] => None
      end
  end.

(** ** The event loop

    The calls of [fetchSuggestions] and [handleBrowse] are tasks of one
    thread: a task runs until its next [await], is suspended there, and is
    resumed when the environment settles the awaited promise.  Tasks are
    numbered in the order in which they were started. *)

(** The synchronous stretch of a program: up to its next [await] or its end. *)
Fixpoint advance {A : Type} (p : Prog A) (st : State) : Prog A * State :=
  match p with
  | Update u k => advance k (u st)
  | _ => (p, st)
  end.

Definition resume {A : Type} (p : Prog A) (r : Settled) (st : State)
  : option (Prog A * State) :=
  match p with
  | Await c k => if accepts c r then Some (advance (k r) (effect c r st)) else None
  | _ => None
  end.

Definition finished {A : Type} (p : Prog A) : bool :=
  match p with
  | Ret _ | Throw _ => true
  | _ => false
  end.

Record Loop : Type := { state : State; tasks : list (Prog unit) }.

Fixpoint replace {A : Type} (i : nat) (x : A) (l : list A) {struct l} : list A :=
  match l, i with
  | [], _ => []
  | _ :: l', O => x :: l'
  | y :: l', S i' => y :: replace i' x l'
  end.

Section EventLoop.

Variable platform : string.
Variable isRemotePath : string -> bool.
Variable remotes : list string.

(** What happens: a resolution is started for a field (by the effect hook
    after the field's text changed, or by [onFocus]), the folder button of a
    field is pressed, or the promise a task awaits is settled. *)
Inductive Event : Type :=
| Fetch (path : string) (field : Field)
| Browse (field : Field)
| Settle (id : nat) (r : Settled).

Definition spawn (p : Prog unit) (l : Loop) : Loop :=
  let '(p', st') := advance p (state l) in
  {| state := st'; tasks := tasks l ++ [p'] |}.

Definition step (l : Loop) (e : Event) : option Loop :=
  match e with
  | Fetch path field =>
      Some (spawn (fetchSuggestions platform isRemotePath remotes path field) l)
  | Browse field =>
      Some (spawn (handleBrowse (sourcePath (state l)) (destPath (state l)) field) l)
  | Settle id r =>
      match nth_error (tasks l) id with
      | Some p =>
          match resume p r (state l) with
          | Some (p', st') => Some {| state := st'; tasks := replace id p' (tasks l) |}
          | None => None
          end
      | None => None
      end
  end.

Fixpoint steps (l : Loop) (es : list Event) : option Loop :=
  match es with
  | [] => Some l
  | e :: es' =>
      match step l e with
      | Some l' => steps l' es'
      | None => None
      end
  end.

End EventLoop.

(** ** The unmount protocol *)

(** The output of [command.execute()]. *)
Record Output : Type := { code : Z; stdout : string; stderr : string }.

(** What one call of [unmount] did: how it ended, the argument lists of the
    [umount] commands it executed, in order, and the number of times the user
    was asked. *)
Record Unmounted : Type := {
  completion : Completion unit;
  executed : list (list string);
  asked : nat
}.

Definition ran (args : list string) (u : Unmounted) : Unmounted :=
  {| completion := completion u;
     executed := args :: executed u;
     asked := asked u |}.

Definition prompted (u : Unmounted) : Unmounted :=
  {| completion := completion u;
     executed := executed u;
     asked := S (asked u) |}.

Definition ended (c : Completion unit) : Unmounted :=
  {| completion := c; executed := []; asked := 0 |}.

(** [unmount(mountPoint, force)].  The environment is given by [outputs], the
    outputs of the successive [umount] commands, and [answers], the user's
    successive answers to the dialog; [None] when the environment has no
    further output or answer to give.  Every call executes one command, so
    the recursion follows [outputs].  The command is taken to run to its
    exit and the dialog to be answered; the calls of [console] are left
    out. *)
Fixpoint unmount (outputs : list Output) (answers : list bool)
    (mountPoint : string) (force : bool) {struct outputs} : option Unmounted :=
  let args := [(if force then "-f" else ""); mountPoint] in
  match outputs with
  | [] => None
  | output :: outputs' =>
      option_map (ran args)
        (if negb (code output =? 0)%Z then
           if Js.includes "busy" (Js.toLowerCase (stderr output)) then
             match answers with
             | [] => None
             | answer :: answers' =>
                 option_map prompted
                   (if answer then unmount outputs' answers' mountPoint true
                    else Some (ended (Threw (Error (stderr output)))))
             end
           else if Js.includes "not currently mounted" (Js.toLowerCase (stderr output)) then
             Some (ended (Returned tt))
           else Some (ended (Threw (Error (stderr output))))
         else Some (ended (Returned tt)))
  end.

Definition busyOutput : Output :=
  {| code := 1; stdout := ""; stderr := "umount: /mnt/x: target is busy." |}.

Definition doneOutput : Output := {| code := 0; stdout := ""; stderr := "" |}.


(** ** Auxiliary definitions for the statements *)

(** The call a program is suspended at once its synchronous stretch is done. *)
Fixpoint nextCall {A : Type} (p : Prog A) : option Call :=
  match p with
  | Update _ k => nextCall k
  | Await c _ => Some c
  | _ => None
  end.

(** The calls a program makes, in order, when its awaits are settled by
    [answers]. *)
Fixpoint called {A : Type} (p : Prog A) (answers : list Settled) : list Call :=
  match p with
  | Update _ k => called k answers
  | Await c k =>
      c :: match answers with
           | r :: answers' => if accepts c r then called (k r) answers' else []
           | [] => []
           end
  | _ => []
  end.

(** The listing of a directory as the spec words it: the entries that are
    not symbolic links, each with the path of the directory, the separator
    unless the directory's path already ends with it, and the entry's name. *)
Definition listing (separator directory : string) (entries : list DirEntry)
  : list Suggestion :=
  map (fun entry =>
         {| IsDir := isDirectory entry;
            Name := name entry;
            Path := (directory
                     ++ (if Js.endsWith separator directory then "" else separator)
                     ++ name entry)%string |})
      (filter (fun entry => negb (isSymlink entry)) entries).

(** [parent] is [path] cut at its last separator, as the spec words the
    retry: what stands before the last occurrence of the separator, and the
    empty path when there is none. *)
Definition cutAtLast (separator path parent : string) : Prop :=
  (exists last,
     path = (parent ++ separator ++ last)%string
     /\ Js.includes separator last = false)
  \/ (Js.includes separator path = false /\ parent = "").

(** A sub-path with a single trailing ["/"] stripped. *)
Definition stripSlash (subPath : string) : string :=
  if Js.endsWith "/" subPath then Js.dropLast subPath else subPath.

(** Settling the promises a task awaits, one after the other. *)
Fixpoint feed {A : Type} (p : Prog A) (answers : list Settled) (st : State)
  : option (Prog A * State) :=
  match answers with
  | [] => Some (p, st)
  | r :: answers' =>
      match resume p r st with
      | Some (p', st') => feed p' answers' st'
      | None => None
      end
  end.

(** A program from its start: its synchronous stretch, then its awaits
    settled by [answers].  The result is the program that remains, an
    [await] or the end, and the state reached. *)
Definition exec {A : Type} (p : Prog A) (answers : list Settled) (st : State)
  : option (Prog A * State) :=
  let '(p', st') := advance p st in feed p' answers st'.

(** The state of one field: its text, suggestions, loading flag and error. *)
Definition sameField (field : Field) (st st' : State) : Prop :=
  rawText field st' = rawText field st
  /\ get field (suggestions st') = get field (suggestions st)
  /\ get field (isLoading st') = get field (isLoading st)
  /\ get field (error st') = get field (error st).

(** No update of the program changes the state of [field]. *)
Fixpoint leaves (field : Field) {A : Type} (p : Prog A) : Prop :=
  match p with
  | Ret _ | Throw _ => True
  | Update u k => (forall st, sameField field st (u st)) /\ leaves field k
  | Await _ k => forall r, leaves field (k r)
  end.

(** The program ends without a further [await] and without writing the
    suggestions of [field]. *)
Fixpoint settles (field : Field) {A : Type} (p : Prog A) : Prop :=
  match p with
  | Ret _ | Throw _ => True
  | Update u k =>
      (forall st, get field (suggestions (u st)) = get field (suggestions st))
      /\ settles field k
  | Await _ _ => False
  end.

(** However the program goes on, its last write to the suggestions of
    [field] replaces them by a value that does not depend on the state, and
    the program ends in the same synchronous stretch. *)
Fixpoint writes (field : Field) {A : Type} (p : Prog A) : Prop :=
  match p with
  | Ret _ | Throw _ => False
  | Update u k =>
      ((exists v, forall st, get field (suggestions (u st)) = v)
       /\ settles field k)
      \/ writes field k
  | Await _ k => forall r, writes field (k r)
  end.

(** The two tests [unmount] makes on the text of stderr, and the arguments
    it gives to [umount]. *)
Definition isBusy (output : Output) : bool :=
  Js.includes "busy" (Js.toLowerCase (stderr output)).

Definition isNotMounted (output : Output) : bool :=
  Js.includes "not currently mounted" (Js.toLowerCase (stderr output)).

Definition argsOf (mountPoint : string) (force : bool) : list string :=
  [(if force then "-f" else ""); mountPoint].

(** The event concerns [field]: it starts one of its operations, or
    settles a promise. *)
Definition onField (field : Field) (e : Event) : Prop :=
  match e with
  | Fetch _ f | Browse f => f = field
  | Settle _ _ => True
  end.

(** The number of prompts the user confirmed. *)
Definition confirmations (answers : list bool) : nat :=
  List.length (filter (fun answer => answer) answers).

(** Inputs of the examples. *)

Definition notMountedBusyName : Output :=
  {| code := 1; stdout := "";
     stderr := "umount: /mnt/busy: not currently mounted" |}.

Definition tmpEntries : list DirEntry :=
  [ {| name := "foo.txt"; isDirectory := false; isSymlink := false |};
    {| name := "link"; isDirectory := true; isSymlink := true |};
    {| name := "sub"; isDirectory := true; isSymlink := false |} ].

Definition listingA : list DirEntry :=
  [ {| name := "one"; isDirectory := true; isSymlink := false |} ].

Definition listingAB : list DirEntry :=
  [ {| name := "two"; isDirectory := false; isSymlink := false |} ].

Definition emptyLoop (sourcePath destPath : string) : Loop :=
  {| state := initialState sourcePath destPath; tasks := [] |}.

(** A state where the destination field is in the middle of things. *)
Definition busyDest : State :=
  {| sourcePath := "/tmp/nope/x";
     destPath := "gdrive:/Photos";
     suggestions := {| at_source := []; at_dest := [remoteItem "gdrive"] |};
     isLoading := {| at_source := false; at_dest := true |};
     error := {| at_source := None;
                 at_dest := Some "Failed to open folder picker" |};
     windowsLocked := false |}.

Definition notMounted : Output :=
  {| code := 1; stdout := "";
     stderr := "umount: /mnt/x: not currently mounted" |}.

(** ** The rest of the component *)

(** [handleSwap], closed over the [sourcePath] and [destPath] of the render
    that created it. *)
Definition handleSwap (sourcePath destPath : string) : Prog unit :=
  let temp := sourcePath in
  setSourcePath destPath ;;
  setDestPath temp.

(** [handlePathChange(value, field)] *)
Definition handlePathChange (value : string) (field : Field) : Prog unit :=
  match field with
  | source => setSourcePath value
  | dest => setDestPath value
  end.

(** The [onFocus] handler of a field whose text is [value]. *)
Definition onFocus (platform : string) (isRemotePath : string -> bool)
    (remotes : list string) (value : string) (field : Field) : Prog unit :=
  if Js.falsy value
  then fetchSuggestions platform isRemotePath remotes "" field
  else Ret tt.

(** The two effect hooks, [useEffect(() => { fetchSuggestions(sourcePath,
    'source') }, [sourcePath, fetchSuggestions])] and its twin for the
    destination, for a fixed list of remotes: on the first render both run,
    the source's first; after a later render each runs when the path of its
    field is not the one of the render before. *)
Definition mountEffects (st : State) : list Event :=
  [Fetch (sourcePath st) source; Fetch (destPath st) dest].

Definition renderEffects (before after : State) : list Event :=
  (if String.eqb (sourcePath before) (sourcePath after) then []
   else [Fetch (sourcePath after) source])
  ++ (if String.eqb (destPath before) (destPath after) then []
      else [Fetch (destPath after) dest]).

(** The options of a field, [sourceOptions] and [destOptions]. *)
Record Options : Type := {
  label : string;
  placeholder : string;
  folderPicker : bool;
  remoteSuggestions : bool;
  clearable : bool
}.

Definition defaultSourceOptions : Options :=
  {| label := "Source";
     folderPicker := true;
     placeholder := "Enter a remote:/path or local path";
     remoteSuggestions := true;
     clearable := true |}.

Definition defaultDestOptions : Options :=
  {| label := "Destination";
     folderPicker := true;
     placeholder := "Enter a remote:/path or local path";
     remoteSuggestions := true;
     clearable := true |}.

(** [l.map((item, index) => f item index)] *)
Fixpoint mapi_from {A B : Type} (f : A -> nat -> B) (index : nat) (l : list A) : list B :=
  match l with
  | [] => []
  | item :: l' => f item index :: mapi_from f (S index) l'
  end.

Definition mapi {A B : Type} (f : A -> nat -> B) (l : list A) : list B :=
  mapi_from f 0 l.

(** What [renderField] and the component hand to the widgets: the props
    that depend on the state or on the options. *)
Module View.

(** An [AutocompleteItem]. *)
Record Item : Type := {
  startContent : string;
  key : nat;
  textValue : string;
  title : string
}.

(** The [Autocomplete] of a field and its folder button. *)
Record Field_ : Type := {
  fieldLabel : string;
  inputValue : string;
  fieldPlaceholder : string;
  isInvalid : bool;
  errorMessage : option string;
  showsLoading : bool;
  selectorIconHidden : bool;
  isClearable : bool;
  items : list Item;
  folderButton : bool
}.

(** [!!fieldError]: an error that is neither [null] nor the empty string. *)
Definition truthyError (fieldError : option string) : bool :=
  match fieldError with
  | Some message => negb (Js.falsy message)
  | None => false
  end.

Definition renderField (sourceOptions destOptions : Options) (st : State)
    (field : Field) : Field_ :=
  let isSource := match field with source => true | dest => false end in
  let value := if isSource then sourcePath st else destPath st in
  let isFieldLoading := get field (isLoading st) in
  let fieldError := get field (error st) in
  let remoteSuggestionsEnabled :=
    if isSource then remoteSuggestions sourceOptions
    else remoteSuggestions destOptions in
  let fieldSuggestions :=
    if remoteSuggestionsEnabled then get field (suggestions st) else [] in
  let pickerEnabled :=
    if isSource then folderPicker sourceOptions else folderPicker destOptions in
  let isClearable :=
    if isSource then clearable sourceOptions else clearable destOptions in
  {| fieldLabel := if isSource then label sourceOptions else label destOptions;
     inputValue := value;
     fieldPlaceholder :=
       if isSource then placeholder sourceOptions else placeholder destOptions;
     isInvalid := truthyError fieldError;
     errorMessage := fieldError;
     showsLoading := isFieldLoading;
     selectorIconHidden := negb remoteSuggestionsEnabled;
     isClearable := isClearable;
     items :=
       mapi (fun item index =>
               {| startContent := if IsDir item then "📁" else "📄";
                  key := index;
                  textValue := Path item;
                  title := Name item |})
            fieldSuggestions;
     folderButton := pickerEnabled |}.

(** The swap button: absent unless [switchable], and then disabled when
    both paths are empty. *)
Definition swapButtonDisabled (switchable : bool) (st : State) : option bool :=
  if switchable
  then Some (Js.falsy (sourcePath st) && Js.falsy (destPath st))
  else None.

End View.


(** The options [renderField] reads for a field. *)
Definition optionsOf (sourceOptions destOptions : Options) (field : Field) : Options :=
  match field with
  | source => sourceOptions
  | dest => destOptions
  end.

(** The command failed and its text holds "busy": the case in which
    [unmount] asks the user. *)
Definition failsBusy (output : Output) : Prop :=
  code output <> 0%Z /\ isBusy output = true.

(** ** Programs over the system: dialogs, files, network, tray and windows

    The mount helpers and the tray are asynchronous functions over calls of
    the platform.  They keep no state of the component; the one variable they
    share with a closure, [currentIcon] of the loading tray, is read and
    written through [Read] and [Write]. *)

Module Sys.

(** The options of [ask]. *)
Record AskOptions : Type := {
  title : string;
  kind : string;
  okLabel : string;
  cancelLabel : string
}.

(** The options of [TrayIcon.new]; the menu is the handle of a menu. *)
Record TrayOptions : Type := {
  id : string;
  icon : string;
  tooltip : option string;
  menu : nat;
  menuOnLeftClick : option bool
}.

(** What [fetch] resolves to; its body is read by [arrayBuffer]. *)
Record Response : Type := { status : nat; ok : bool }.

Inductive Call : Type :=
| exists_ (path : string)
| ask (message : string) (options : option AskOptions)
| downloadDir
| fetch (url : string)
| arrayBuffer (response : Response)
| writeFile (path : string) (data : list Byte.byte)
| revealItemInDir (path : string)
| resolveResource (path : string)
| trayGetById (id : string)
| traySetVisible (tray : nat) (visible : bool)
| traySetMenu (tray : nat) (menu : nat)
| traySetIcon (tray : nat) (icon : string)
| trayNew (options : TrayOptions)
| buildMenu
| menuItemNew (id text : string)
| menuNew (id : string) (items : list nat)
| getAllWindows
| windowEmit (window : nat) (event : string)
| currentWindowEmit (event : string)
| exit (code : Z)
| resetMainWindow
| setInterval (milliseconds : nat).

Inductive Value : Type :=
| VBool (b : bool)
| VString (s : string)
| VBytes (data : list Byte.byte)
| VResponse (response : Response)
| VTray (tray : option nat)
| VHandle (handle : nat)
| VWindows (labels : list string)
| VUndefined.

Inductive Settled : Type :=
| Fulfilled (v : Value)
| Rejected (err : Thrown).

Inductive Prog (A : Type) : Type :=
| Ret (a : A)
| Throw (err : Thrown)
| Read (k : nat -> Prog A)
| Write (n : nat) (k : Prog A)
| Await (c : Call) (k : Settled -> Prog A).
Arguments Ret {A} a.
Arguments Throw {A} err.
Arguments Read {A} k.
Arguments Write {A} n k.
Arguments Await {A} c k.

Fixpoint bind {A B : Type} (m : Prog A) (f : A -> Prog B) : Prog B :=
  match m with
  | Ret a => f a
  | Throw err => Throw err
  | Read k => Read (fun n => bind (k n) f)
  | Write n k => Write n (bind k f)
  | Await c k => Await c (fun r => bind (k r) f)
  end.

Fixpoint try_catch {A : Type} (m : Prog A) (handler : Thrown -> Prog A) : Prog A :=
  match m with
  | Ret a => Ret a
  | Throw err => handler err
  | Read k => Read (fun n => try_catch (k n) handler)
  | Write n k => Write n (try_catch k handler)
  | Await c k => Await c (fun r => try_catch (k r) handler)
  end.

Declare Scope sys_scope.
Delimit Scope sys_scope with sys.

Module Notations.
Notation "x <- m ;; k" := (bind m (fun x => k))
  (at level 61, m at next level, right associativity) : sys_scope.
Notation "m ;; k" := (bind m (fun _ => k))
  (at level 61, right associativity) : sys_scope.
End Notations.

(** The awaited calls, by the type of what they resolve to. *)

Definition awaitBool (c : Call) : Prog bool :=
  Await c (fun r =>
    match r with
    | Fulfilled (VBool b) => Ret b
    | Fulfilled _ => Throw NonError
    | Rejected err => Throw err
    end).

Definition awaitString (c : Call) : Prog string :=
  Await c (fun r =>
    match r with
    | Fulfilled (VString s) => Ret s
    | Fulfilled _ => Throw NonError
    | Rejected err => Throw err
    end).

Definition awaitBytes (c : Call) : Prog (list Byte.byte) :=
  Await c (fun r =>
    match r with
    | Fulfilled (VBytes data) => Ret data
    | Fulfilled _ => Throw NonError
    | Rejected err => Throw err
    end).

Definition awaitResponse (c : Call) : Prog Response :=
  Await c (fun r =>
    match r with
    | Fulfilled (VResponse response) => Ret response
    | Fulfilled _ => Throw NonError
    | Rejected err => Throw err
    end).

Definition awaitTray (c : Call) : Prog (option nat) :=
  Await c (fun r =>
    match r with
    | Fulfilled (VTray tray) => Ret tray
    | Fulfilled _ => Throw NonError
    | Rejected err => Throw err
    end).

Definition awaitHandle (c : Call) : Prog nat :=
  Await c (fun r =>
    match r with
    | Fulfilled (VHandle handle) => Ret handle
    | Fulfilled _ => Throw NonError
    | Rejected err => Throw err
    end).

Definition awaitWindows (c : Call) : Prog (list string) :=
  Await c (fun r =>
    match r with
    | Fulfilled (VWindows labels) => Ret labels
    | Fulfilled _ => Throw NonError
    | Rejected err => Throw err
    end).

Definition awaitVoid (c : Call) : Prog unit :=
  Await c (fun r =>
    match r with
    | Fulfilled _ => Ret tt
    | Rejected err => Throw err
    end).

(** A call whose promise is dropped: however it settles, the caller goes
    on. *)
Definition fireAndForget (c : Call) : Prog unit :=
  Await c (fun _ => Ret tt).

(** What a run of a program did: how it ended, the calls it made in order,
    and the value of [currentIcon] at its end. *)
Record Ran (A : Type) : Type := {
  outcome : Completion A;
  calls : list Call;
  variable : nat
}.
Arguments outcome {A} _.
Arguments calls {A} _.
Arguments variable {A} _.

Definition didCall {A : Type} (c : Call) (r : Ran A) : Ran A :=
  {| outcome := outcome r; calls := c :: calls r; variable := variable r |}.

(** [interp env p n]: [p] run to its end, every call settled as the
    environment [env] settles it, from the value [n] of the variable. *)
Fixpoint interp {A : Type} (env : Call -> Settled) (p : Prog A) (n : nat) : Ran A :=
  match p with
  | Ret a => {| outcome := Returned a; calls := []; variable := n |}
  | Throw err => {| outcome := Threw err; calls := []; variable := n |}
  | Read k => interp env (k n) n
  | Write n' k => interp env k n'
  | Await c k => didCall c (interp env (k (env c)) n)
  end.

End Sys.

(** ** The mount prerequisites *)

Module Mount.

Import Sys.Notations.
Local Open Scope sys_scope.

(** [needsMountPlugin()], for the value [currentPlatform] of [platform()].
    The calls of [console.log] are left out. *)
Definition needsMountPlugin (currentPlatform : string) : Sys.Prog bool :=
  if String.eqb currentPlatform "macos" then
    hasFuseT <- Sys.awaitBool (Sys.exists_ "/Library/Application Support/fuse-t") ;;
    hasOsxFuse <- Sys.awaitBool (Sys.exists_ "/Library/Filesystems/macfuse.fs") ;;
    Sys.Ret (negb hasFuseT && negb hasOsxFuse)
  else if String.eqb currentPlatform "windows" then
    hasWinFsp <-
      (first <- Sys.awaitBool (Sys.exists_ "C:\Program Files\WinFsp") ;;
       if first then Sys.Ret true
       else Sys.awaitBool (Sys.exists_ "C:\Program Files (x86)\WinFsp")) ;;
    Sys.Ret (negb hasWinFsp)
  else Sys.Ret false.

Definition fuseInstallerUrl : string :=
  "https://github.com/macos-fuse-t/fuse-t/releases/download/1.0.49/fuse-t-macos-installer-1.0.49.pkg".

Definition winFspInstallerUrl : string :=
  "https://github.com/winfsp/winfsp/releases/download/v2.0/winfsp-2.0.23075.msi".

Definition fuseDialog : Sys.Call :=
  Sys.ask
    "Fuse-t is required on macOS to mount remotes. You can continue the operation once you're done with the installation."
    (Some {| Sys.title := "Fuse-t not installed";
             Sys.kind := "warning";
             Sys.okLabel := "Download";
             Sys.cancelLabel := "Cancel" |}).

Definition winFspDialog : Sys.Call :=
  Sys.ask
    "WinFsp is required on Windows to mount remotes. You can continue the operation once you're done with the installation."
    (Some {| Sys.title := "WinFsp not installed";
             Sys.kind := "warning";
             Sys.okLabel := "Download";
             Sys.cancelLabel := "Cancel" |}).

(** The body of [if (wantsDownload)]: the installer at [url] is fetched,
    written as [fileName] into the download directory and revealed. *)
Definition download (url fileName : string) : Sys.Prog unit :=
  dir <- Sys.awaitString Sys.downloadDir ;;
  let localPath := (dir ++ "/" ++ fileName)%string in
  response <- Sys.awaitResponse (Sys.fetch url) ;;
  installer <- Sys.awaitBytes (Sys.arrayBuffer response) ;;
  Sys.awaitVoid (Sys.writeFile localPath installer) ;;
  Sys.awaitVoid (Sys.revealItemInDir localPath).

(** [dialogGetMountPlugin()] *)
Definition dialogGetMountPlugin (currentPlatform : string) : Sys.Prog unit :=
  (if String.eqb currentPlatform "macos" then
     wantsDownload <- Sys.awaitBool fuseDialog ;;
     if wantsDownload then download fuseInstallerUrl "fuse-t-installer.pkg"
     else Sys.Ret tt
   else Sys.Ret tt) ;;
  (if String.eqb currentPlatform "windows" then
     wantsDownload <- Sys.awaitBool winFspDialog ;;
     if wantsDownload then download winFspInstallerUrl "winfsp-installer.msi"
     else Sys.Ret tt
   else Sys.Ret tt).

(** The platform's dialog, installer and file name, if it has them. *)
Definition installerOf (currentPlatform : string)
  : option (Sys.Call * string * string) :=
  if String.eqb currentPlatform "macos"
  then Some (fuseDialog, fuseInstallerUrl, "fuse-t-installer.pkg")
  else if String.eqb currentPlatform "windows"
  then Some (winFspDialog, winFspInstallerUrl, "winfsp-installer.msi")
  else None.

End Mount.

(** ** The tray *)

Module Tray.

Import Sys.Notations.
Local Open Scope sys_scope.

(** [getMainTray()] and [getLoadingTray()] *)
Definition getMainTray : Sys.Prog (option nat) :=
  Sys.awaitTray (Sys.trayGetById "main-tray").

Definition getLoadingTray : Sys.Prog (option nat) :=
  Sys.awaitTray (Sys.trayGetById "loading-tray").

(** [windows.find((w) => w.label === 'main')], as the position of the
    window found. *)
Fixpoint findMain (index : nat) (labels : list string) : option nat :=
  match labels with
  | [] => None
  | label :: labels' =>
      if String.eqb label "main" then Some index
      else findMain (S index) labels'
  end.

(** [triggerTrayRebuild()]: the promise of [emit] is not returned from the
    [then] callback, so that nobody waits for it. *)
Definition triggerTrayRebuild : Sys.Prog unit :=
  windows <- Sys.awaitWindows Sys.getAllWindows ;;
  match findMain 0 windows with
  | Some w => Sys.fireAndForget (Sys.windowEmit w "rebuild-tray")
  | None => Sys.Ret tt
  end.

(** [rebuildTrayMenu()] *)
Definition rebuildTrayMenu : Sys.Prog unit :=
  tray <- getMainTray ;;
  match tray with
  | None => Sys.Ret tt
  | Some tray =>
      newMenu <- Sys.awaitHandle Sys.buildMenu ;;
      Sys.awaitVoid (Sys.traySetMenu tray newMenu)
  end.

(** [onTrayAction(event)], for the [type] of the event. *)
Definition onTrayAction (eventType : string) : Sys.Prog unit :=
  if String.eqb eventType "Click" then Sys.awaitVoid Sys.resetMainWindow
  else Sys.Ret tt.

(** [initTray()] *)
Definition initTray : Sys.Prog unit :=
  Sys.try_catch
    (menu <- Sys.awaitHandle Sys.buildMenu ;;
     loading <- Sys.awaitTray (Sys.trayGetById "loading-tray") ;;
     match loading with
     | Some t => Sys.awaitVoid (Sys.traySetVisible t false)
     | None => Sys.Ret tt
     end ;;
     icon <- Sys.awaitString (Sys.resolveResource "icons/favicon/icon.png") ;;
     _ <- Sys.awaitHandle
            (Sys.trayNew {| Sys.id := "main-tray";
                            Sys.icon := icon;
                            Sys.tooltip := Some "Rclone";
                            Sys.menu := menu;
                            Sys.menuOnLeftClick := Some true |}) ;;
     Sys.Ret tt)
    (fun _ => Sys.Ret tt).

(** The [action] of the Quit item of the loading tray. *)
Definition quitAction : Sys.Prog unit :=
  answer <- Sys.awaitBool
              (Sys.ask "An operation is in progress, are you sure you want to exit?"
                 None) ;;
  if answer then
    Sys.awaitVoid (Sys.currentWindowEmit "close-app") ;;
    Sys.awaitVoid (Sys.exit 0)
  else Sys.Ret tt.

(** [`${currentIcon}`] *)
Definition toString (n : nat) : string := NilZero.string_of_uint (Nat.to_uint n).

(** The resource of a frame of the animation. *)
Definition framePath (currentIcon : nat) : string :=
  ("icons/favicon/frame_" ++ (if Nat.ltb currentIcon 10 then "0" else "")
   ++ toString currentIcon ++ "_delay-0.1s.png")%string.

(** The callback of [setInterval], for the tray [loadingTray]. *)
Definition tick (loadingTray : nat) : Sys.Prog unit :=
  Sys.Read (fun currentIcon =>
    (if Nat.ltb 17 currentIcon then Sys.Write 1 (Sys.Ret tt) else Sys.Ret tt) ;;
    Sys.Read (fun currentIcon =>
      globeIconPath <- Sys.awaitString (Sys.resolveResource (framePath currentIcon)) ;;
      Sys.awaitVoid (Sys.traySetIcon loadingTray globeIconPath) ;;
      Sys.Read (fun currentIcon => Sys.Write (currentIcon + 1) (Sys.Ret tt)))).

(** [initLoadingTray()], up to the registration of the timer. *)
Definition initLoadingTray (currentPlatform : string) : Sys.Prog unit :=
  if String.eqb currentPlatform "linux" then Sys.Ret tt
  else
    globeIconPath <-
      Sys.awaitString (Sys.resolveResource "icons/favicon/frame_00_delay-0.1s.png") ;;
    quitItem <- Sys.awaitHandle (Sys.menuItemNew "quit-loading" "Quit") ;;
    loadingMenu <- Sys.awaitHandle (Sys.menuNew "main-menu" [quitItem]) ;;
    loadingTray <-
      Sys.awaitHandle
        (Sys.trayNew {| Sys.id := "loading-tray";
                        Sys.icon := globeIconPath;
                        Sys.tooltip := None;
                        Sys.menu := loadingMenu;
                        Sys.menuOnLeftClick := None |}) ;;
    Sys.Write 1 (Sys.Ret tt) ;;
    Sys.awaitVoid (Sys.setInterval 200).

(** *** The timer

    The callbacks of the timer are tasks of the event loop like the
    resolutions: a tick runs to its next [await], and ticks that are
    suspended can be resumed in any order while further ticks start. *)

Fixpoint advance {A : Type} (p : Sys.Prog A) (n : nat) : Sys.Prog A * nat :=
  match p with
  | Sys.Read k => advance (k n) n
  | Sys.Write n' k => advance k n'
  | _ => (p, n)
  end.

Record Timer : Type := {
  currentIcon : nat;
  ticks : list (Sys.Prog unit);
  requested : list Sys.Call
}.

Inductive TimerEvent : Type :=
| Fire
| Settle (id : nat) (r : Sys.Settled).

Definition pendingCall {A : Type} (p : Sys.Prog A) : list Sys.Call :=
  match p with
  | Sys.Await c _ => [c]
  | _ => []
  end.

Definition timerStep (loadingTray : nat) (t : Timer) (e : TimerEvent) : option Timer :=
  match e with
  | Fire =>
      let '(p, n) := advance (tick loadingTray) (currentIcon t) in
      Some {| currentIcon := n;
              ticks := ticks t ++ [p];
              requested := requested t ++ pendingCall p |}
  | Settle id r =>
      match nth_error (ticks t) id with
      | Some (Sys.Await c k) =>
          let '(p, n) := advance (k r) (currentIcon t) in
          Some {| currentIcon := n;
                  ticks := replace id p (ticks t);
                  requested := requested t ++ pendingCall p |}
      | _ => None
      end
  end.

Fixpoint timerSteps (loadingTray : nat) (t : Timer) (es : list TimerEvent)
  : option Timer :=
  match es with
  | [] => Some t
  | e :: es' =>
      match timerStep loadingTray t e with
      | Some t' => timerSteps loadingTray t' es'
      | None => None
      end
  end.

(** The timer as [initLoadingTray] leaves it. *)
Definition newTimer : Timer :=
  {| currentIcon := 1; ticks := []; requested := [] |}.

(** A frame of the animation: one of the seventeen resources
    [frame_01] to [frame_17]. *)
Definition isFrame (c : Sys.Call) : Prop :=
  match c with
  | Sys.resolveResource path =>
      exists frame, 1 <= frame <= 17 /\ path = framePath frame
  | _ => True
  end.

(** [n] ticks one after the other, each run to its end before the next,
    every call fulfilled: the resources requested. *)
Definition allFulfilled (c : Sys.Call) : Sys.Settled :=
  match c with
  | Sys.resolveResource path => Sys.Fulfilled (Sys.VString path)
  | _ => Sys.Fulfilled Sys.VUndefined
  end.

Fixpoint ticksInTurn (env : Sys.Call -> Sys.Settled) (loadingTray : nat)
    (count : nat) (currentIcon : nat) : list Sys.Call * nat :=
  match count with
  | O => ([], currentIcon)
  | S count' =>
      let r := Sys.interp env (tick loadingTray) currentIcon in
      let '(later, n) := ticksInTurn env loadingTray count' (Sys.variable r) in
      (Sys.calls r ++ later, n)
  end.

End Tray.

(** An environment in which the user confirms, the download directory is
    [/home/me/Downloads], and the server answers 404 with a short body. *)
Definition confirmingEnv (c : Sys.Call) : Sys.Settled :=
  match c with
  | Sys.ask _ _ => Sys.Fulfilled (Sys.VBool true)
  | Sys.downloadDir => Sys.Fulfilled (Sys.VString "/home/me/Downloads")
  | Sys.fetch _ => Sys.Fulfilled (Sys.VResponse {| Sys.status := 404; Sys.ok := false |})
  | Sys.arrayBuffer _ => Sys.Fulfilled (Sys.VBytes [Byte.x4e; Byte.x6f])
  | _ => Sys.Fulfilled Sys.VUndefined
  end.

(** An environment in which the user declines every dialog. *)
Definition decliningEnv (c : Sys.Call) : Sys.Settled :=
  match c with
  | Sys.ask _ _ => Sys.Fulfilled (Sys.VBool false)
  | _ => Sys.Fulfilled Sys.VUndefined
  end.

(** An environment in which the user confirms and the network is down. *)
Definition offlineEnv (c : Sys.Call) : Sys.Settled :=
  match c with
  | Sys.ask _ _ => Sys.Fulfilled (Sys.VBool true)
  | Sys.downloadDir => Sys.Fulfilled (Sys.VString "/home/me/Downloads")
  | Sys.fetch _ => Sys.Rejected (Error "network unreachable")
  | _ => Sys.Fulfilled Sys.VUndefined
  end.

(** An environment with three windows, two of them labelled [main], in
    which no event can be emitted. *)
Definition twoMainWindows (c : Sys.Call) : Sys.Settled :=
  match c with
  | Sys.getAllWindows => Sys.Fulfilled (Sys.VWindows ["settings"; "main"; "main"])
  | Sys.windowEmit _ _ => Sys.Rejected (Error "window closed")
  | _ => Sys.Fulfilled Sys.VUndefined
  end.

(** An environment in which the user confirms and everything else is
    fulfilled with [undefined]. *)
Definition quittingEnv (c : Sys.Call) : Sys.Settled :=
  match c with
  | Sys.ask _ _ => Sys.Fulfilled (Sys.VBool true)
  | _ => Sys.Fulfilled Sys.VUndefined
  end.

(** An environment with a main tray [7] and a built menu [3]. *)
Definition trayEnv (c : Sys.Call) : Sys.Settled :=
  match c with
  | Sys.trayGetById _ => Sys.Fulfilled (Sys.VTray (Some 7))
  | Sys.buildMenu => Sys.Fulfilled (Sys.VHandle 3)
  | Sys.resolveResource path => Sys.Fulfilled (Sys.VString path)
  | Sys.trayNew _ => Sys.Fulfilled (Sys.VHandle 8)
  | Sys.menuItemNew _ _ => Sys.Fulfilled (Sys.VHandle 1)
  | Sys.menuNew _ _ => Sys.Fulfilled (Sys.VHandle 2)
  | _ => Sys.Fulfilled Sys.VUndefined
  end.

(** *** Invariant of the timer *)

Module Animation.

(** The frame a tick shows when it finds [currentIcon] at [n]. *)
Definition shown (n : nat) : nat := if Nat.ltb 17 n then 1 else n.

(** From the value [n] of [currentIcon], the program asks only for frames
    of the animation and keeps [currentIcon] positive, whatever the other
    tasks, which keep it positive, do while it is suspended. *)
Fixpoint good {A : Type} (p : Sys.Prog A) (n : nat) : Prop :=
  match p with
  | Sys.Ret _ | Sys.Throw _ => 1 <= n
  | Sys.Read k => good (k n) n
  | Sys.Write n' k => good k n'
  | Sys.Await c k =>
      Tray.isFrame c /\ 1 <= n /\ forall r n', 1 <= n' -> good (k r) n'
  end.

(** A suspended task that is good however it is resumed. *)
Definition resumable {A : Type} (p : Sys.Prog A) : Prop :=
  match p with
  | Sys.Await c k => forall r n', 1 <= n' -> good (k r) n'
  | _ => True
  end.

(** The two calls of a tick that shows [frame], when the resource of the
    frame resolves to [resolved]. *)
Definition showFrame (loadingTray : nat) (resolved : string -> string) (frame : nat)
  : list Sys.Call :=
  [Sys.resolveResource (Tray.framePath frame);
   Sys.traySetIcon loadingTray (resolved (Tray.framePath frame))].

(** What every state of the timer satisfies. *)
Definition timerInv (t : Tray.Timer) : Prop :=
  1 <= Tray.currentIcon t
  /\ Forall Tray.isFrame (Tray.requested t)
  /\ Forall resumable (Tray.ticks t).

End Animation.

(** ** Schedules of the event loop *)

(** The event starts a task. *)
Definition isStart (e : Event) : bool :=
  match e with
  | Fetch _ _ | Browse _ => true
  | Settle _ _ => false
  end.

(** The events of a schedule that start a task, in order.  The task an
    event starts is numbered by the rank of the event among them, after the
    tasks that were there before the schedule. *)
Definition starts (es : list Event) : list Event := filter isStart es.

Definition started (es : list Event) : nat := List.length (starts es).

(** The answers a schedule gives to the calls of task [id], in order. *)
Fixpoint answersTo (id : nat) (es : list Event) : list Settled :=
  match es with
  | [] => []
  | Settle i r :: es' =>
      if Nat.eqb i id then r :: answersTo id es' else answersTo id es'
  | _ :: es' => answersTo id es'
  end.

(** A program without its first synchronous stretch: where it is
    suspended, whatever the state. *)
Fixpoint strip {A : Type} (p : Prog A) : Prog A :=
  match p with
  | Update _ k => strip k
  | _ => p
  end.

(** What a suspended task has become once its calls were answered by
    [answers]. *)
Fixpoint follow {A : Type} (p : Prog A) (answers : list Settled) {struct answers}
  : option (Prog A) :=
  match answers with
  | [] => Some p
  | r :: rest =>
      match p with
      | Await c k => if accepts c r then follow (strip (k r)) rest else None
      | _ => None
      end
  end.

(** The event that started task [id], in a schedule run from a loop that
    held [base] tasks. *)
Definition starterOf (base : nat) (history : list Event) (id : nat) : option Event :=
  if Nat.ltb id base then None else nth_error (starts history) (id - base).

(** The events [es] that follow [history] all belong to the other field:
    they start its resolutions and browses, and settle calls of tasks that
    such events started. *)
Fixpoint elsewhere (field : Field) (base : nat) (history es : list Event) : Prop :=
  match es with
  | [] => True
  | e :: es' =>
      match e with
      | Fetch _ f | Browse f => f = other field
      | Settle id _ =>
          exists e0, starterOf base history id = Some e0 /\ onField (other field) e0
      end
      /\ elsewhere field base (history ++ [e]) es'
  end.

(** The schedule of the example: the dest field is resolved on the side,
    the first listing of ["/a/x"] fails before the resolution of ["/a/xy"]
    is started, the latter completes, then the retry of the former. *)
Definition overlapping : list Event :=
  [Fetch "/d" dest;
   Fetch "/a/x" source;
   Settle 1 (Rejected NonError);
   Fetch "/a/xy" source;
   Settle 2 (Fulfilled (VEntries listingAB));
   Settle 1 (Fulfilled (VEntries listingA))].

(** * Properties *)

(** ** The primitives on examples *)

Example split_remote : Js.split ":/" "gdrive:/Photos/2023" = ["gdrive"; "Photos/2023"].
Proof. reflexivity. Qed.

Example split_twice : Js.split ":/" "r:/a:/b" = ["r"; "a"; "b"].
Proof. reflexivity. Qed.

Example split_no_separator : Js.split "/" "foo" = ["foo"].
Proof. reflexivity. Qed.

Example split_trailing : Js.split "/" "/tmp/" = [""; "tmp"; ""].
Proof. reflexivity. Qed.

Example lower_busy : Js.toLowerCase "Resource BUSY." = "resource busy.".
Proof. reflexivity. Qed.

Example unmount_scenario :
  unmount [busyOutput; doneOutput] [true] "/mnt/x" false
  = Some {| completion := Returned tt;
            executed := [[""; "/mnt/x"]; ["-f"; "/mnt/x"]];
            asked := 1 |}.
Proof. reflexivity. Qed.

(** ** Facts on the string primitives *)

Module JsFacts.

Lemma append_empty_r (s : string) : (s ++ "")%string = s.
Proof.
  induction s as [|a s IH]; cbn; [reflexivity | now rewrite IH].
Qed.

Lemma append_assoc (s t u : string) : ((s ++ t) ++ u)%string = (s ++ t ++ u)%string.
Proof.
  induction s as [|a s IH]; cbn; [reflexivity | now rewrite IH].
Qed.

Lemma includes_cons_false (sub : string) (a : ascii) (s : string) :
  Js.includes sub (String a s) = false ->
  Js.startsWith sub (String a s) = false /\ Js.includes sub s = false.
Proof.
  cbn [Js.includes]. intros H. apply orb_false_iff in H. exact H.
Qed.

Lemma includes_append_l (sub pre s : string) :
  Js.includes sub s = true -> Js.includes sub (pre ++ s) = true.
Proof.
  intros H. induction pre as [|a pre IH]; cbn [append]; [exact H|].
  cbn [Js.includes]. rewrite IH. apply orb_true_r.
Qed.

(** Without an occurrence of the separator there is one piece. *)
Lemma split_from_none (sep : string) : forall s cur,
  Js.includes sep s = false ->
  Js.split_from sep 0 cur s = [(cur ++ s)%string].
Proof.
  induction s as [|a s IH]; intros cur H.
  - cbn. now rewrite append_empty_r.
  - apply includes_cons_false in H. destruct H as [H1 H2].
    cbn [Js.split_from]. rewrite H1, (IH _ H2), append_assoc. reflexivity.
Qed.

Lemma split_none (sep s : string) :
  Js.includes sep s = false -> Js.split sep s = [s].
Proof.
  intros H. unfold Js.split. now rewrite (split_from_none sep s "" H).
Qed.

Lemma startsWith_char (c a : ascii) (s : string) :
  Js.startsWith (String c "") (String a s) = if ascii_dec c a then true else false.
Proof.
  unfold Js.startsWith. cbn [String.prefix]. destruct (ascii_dec c a); [|reflexivity].
  destruct s; reflexivity.
Qed.

(** The pieces cut by a one-character separator: all but the last piece,
    joined again, are the text before the last occurrence. *)
Lemma split_char_last (c : ascii) (last : string) :
  Js.includes (String c "") last = false ->
  forall pre cur,
  exists pieces,
    Js.split_from (String c "") 0 cur (pre ++ String c last)
    = pieces ++ [last]
    /\ pieces <> []
    /\ Js.join (String c "") pieces = (cur ++ pre)%string.
Proof.
  intros Hlast. induction pre as [|a pre IH]; intros cur.
  - exists [cur]. cbn [append Js.split_from].
    rewrite startsWith_char. destruct (ascii_dec c c) as [_|n]; [|now destruct n].
    cbn [String.length Nat.sub].
    rewrite (split_from_none _ _ "" Hlast). cbn.
    rewrite append_empty_r. repeat split. discriminate.
  - cbn [append Js.split_from]. rewrite startsWith_char.
    destruct (ascii_dec c a) as [<-|n].
    + cbn [String.length Nat.sub].
      destruct (IH "") as (pieces & E & Hne & J).
      exists (cur :: pieces). rewrite E. split; [reflexivity|].
      split; [discriminate|].
      destruct pieces as [|p pieces]; [contradiction|].
      cbn [Js.join] in *. rewrite J. cbn. reflexivity.
    + destruct (IH (cur ++ String a "")%string) as (pieces & E & Hne & J).
      exists pieces. rewrite E. split; [reflexivity|]. split; [exact Hne|].
      rewrite J, append_assoc. reflexivity.
Qed.

(** [path.split(sep).slice(0, -1).join(sep)] cuts the path at the last
    separator. *)
Lemma parent_of_path (c : ascii) (pre last : string) :
  Js.includes (String c "") last = false ->
  Js.join (String c "") (Js.sliceInit (Js.split (String c "") (pre ++ String c last)))
  = pre.
Proof.
  intros Hlast. unfold Js.split, Js.sliceInit.
  destruct (split_char_last c last Hlast pre "") as (pieces & E & _ & J).
  rewrite E, removelast_last. exact J.
Qed.

(** A path without separator is cut down to the empty string. *)
Lemma parent_of_name (sep s : string) :
  Js.includes sep s = false ->
  Js.join sep (Js.sliceInit (Js.split sep s)) = "".
Proof.
  intros H. rewrite (split_none _ _ H). reflexivity.
Qed.

Lemma slashSymbol_char (platform : string) :
  slashSymbol platform = "/" \/ slashSymbol platform = "\".
Proof.
  unfold slashSymbol. destruct (String.eqb platform "windows"); auto.
Qed.

Lemma startsWith_remoteSep (a : ascii) (s : string) :
  Js.startsWith ":/" (String a s) = true ->
  a = ":"%char /\ exists s', s = String "/" s'.
Proof.
  unfold Js.startsWith. cbn [String.prefix].
  destruct (ascii_dec ":" a) as [<-|]; [|discriminate].
  destruct s as [|b s]; cbn [String.prefix]; [discriminate|].
  destruct (ascii_dec "/" b) as [<-|]; [|discriminate].
  intros _. split; [reflexivity|]. now exists s.
Qed.

(** The first piece cut by [":/"] is the text before its first occurrence,
    and the cutting goes on after that occurrence. *)
Lemma split_remote_first (post : string) : forall pre cur,
  Js.includes ":/" pre = false ->
  Js.split_from ":/" 0 cur (pre ++ ":/" ++ post)
  = (cur ++ pre)%string :: Js.split_from ":/" 0 "" post.
Proof.
  change (":/" ++ post)%string with (String ":" (String "/" post)).
  induction pre as [|a pre IH]; intros cur H.
  - cbn [append]. rewrite append_empty_r.
    cbn [Js.split_from Js.startsWith String.prefix].
    destruct (ascii_dec ":" ":") as [_|n]; [|now destruct n].
    destruct (ascii_dec "/" "/") as [_|n]; [|now destruct n].
    destruct post; reflexivity.
  - apply includes_cons_false in H. destruct H as [H1 H2].
    cbn [append Js.split_from].
    destruct (Js.startsWith ":/" (String a (pre ++ String ":" (String "/" post)))) eqn:E.
    + exfalso. apply startsWith_remoteSep in E. destruct E as [-> [s' E]].
      destruct pre as [|b pre].
      * cbn in E. discriminate.
      * cbn [append] in E. injection E as -> _.
        unfold Js.startsWith in H1. cbn in H1.
        destruct pre; discriminate.
    + rewrite (IH _ H2), append_assoc. reflexivity.
Qed.

End JsFacts.

(** ** The unmount protocol *)

Module Unmount.

Lemma code_nonzero (output : Output) :
  code output <> 0%Z -> negb (code output =? 0)%Z = true.
Proof.
  intros H. apply negb_true_iff. apply Z.eqb_neq. exact H.
Qed.

(** A command that exits with zero ends the call at once. *)
Lemma exit_zero (output : Output) outputs answers mountPoint force :
  code output = 0%Z ->
  unmount (output :: outputs) answers mountPoint force
  = Some {| completion := Returned tt;
            executed := [argsOf mountPoint force];
            asked := 0 |}.
Proof.
  intros H. cbn [unmount]. rewrite H. reflexivity.
Qed.

(** The busy branch: one prompt, then either the error or the forced call. *)
Lemma busy_branch (output : Output) outputs answer answers mountPoint force :
  code output <> 0%Z ->
  isBusy output = true ->
  unmount (output :: outputs) (answer :: answers) mountPoint force
  = if answer
    then option_map (fun u => ran (argsOf mountPoint force) (prompted u))
           (unmount outputs answers mountPoint true)
    else Some {| completion := Threw (Error (stderr output));
                 executed := [argsOf mountPoint force];
                 asked := 1 |}.
Proof.
  intros Hc Hb. unfold isBusy in Hb.
  cbn [unmount]. rewrite (code_nonzero _ Hc), Hb.
  destruct answer; [|reflexivity].
  destruct (unmount outputs answers mountPoint true); reflexivity.
Qed.

(** A failure that is neither busy nor "not currently mounted". *)
Lemma other_failure (output : Output) outputs answers mountPoint force :
  code output <> 0%Z ->
  isBusy output = false ->
  isNotMounted output = false ->
  unmount (output :: outputs) answers mountPoint force
  = Some {| completion := Threw (Error (stderr output));
            executed := [argsOf mountPoint force];
            asked := 0 |}.
Proof.
  intros Hc Hb Hn. unfold isBusy in Hb. unfold isNotMounted in Hn.
  cbn [unmount]. rewrite (code_nonzero _ Hc), Hb, Hn. reflexivity.
Qed.

(** "not currently mounted" is a success when the output is not also taken
    for busy. *)
Lemma not_mounted_not_busy (output : Output) outputs answers mountPoint force :
  code output <> 0%Z ->
  isBusy output = false ->
  isNotMounted output = true ->
  unmount (output :: outputs) answers mountPoint force
  = Some {| completion := Returned tt;
            executed := [argsOf mountPoint force];
            asked := 0 |}.
Proof.
  intros Hc Hb Hn. unfold isBusy in Hb. unfold isNotMounted in Hn.
  cbn [unmount]. rewrite (code_nonzero _ Hc), Hb, Hn. reflexivity.
Qed.

(** Every command after the first follows a prompt the user confirmed. *)
Lemma executed_bound outputs : forall answers mountPoint force u,
  unmount outputs answers mountPoint force = Some u ->
  List.length (executed u) <= S (confirmations answers)
  /\ List.length (executed u) <= S (asked u).
Proof.
  induction outputs as [|output outputs IH]; intros answers mountPoint force u H.
  - discriminate.
  - cbn [unmount] in H.
    destruct (negb (code output =? 0)%Z).
    + destruct (Js.includes "busy" (Js.toLowerCase (stderr output))).
      * destruct answers as [|[|] answers]; [discriminate| |].
        -- destruct (unmount outputs answers mountPoint true) as [u'|] eqn:E;
             [|discriminate].
           injection H as <-. destruct (IH _ _ _ _ E) as [H1 H2].
           unfold confirmations in *. cbn. lia.
        -- injection H as <-. cbn. lia.
      * destruct (Js.includes "not currently mounted" (Js.toLowerCase (stderr output)));
          injection H as <-; cbn; lia.
    + injection H as <-. cbn. lia.
Qed.

(** C7: an unmount whose command fails as busy and whose prompt the user
    declines fails with the busy error, the text of stderr, after exactly one
    command, whatever the force flag. *)
Theorem busy_declined (output : Output) outputs answers mountPoint force :
  code output <> 0%Z ->
  Js.includes "busy" (Js.toLowerCase (stderr output)) = true ->
  exists u,
    unmount (output :: outputs) (false :: answers) mountPoint force = Some u
    /\ completion u = Threw (Error (stderr output))
    /\ executed u = [[(if force then "-f" else ""); mountPoint]]
    /\ List.length (executed u) = 1
    /\ asked u = 1.
Proof.
  intros Hc Hb.
  rewrite (busy_branch output outputs false answers mountPoint force Hc Hb).
  eexists. split; [reflexivity|]. cbn. repeat split.
Qed.

Lemma busy_declined_witness :
  code busyOutput <> 0%Z
  /\ Js.includes "busy" (Js.toLowerCase (stderr busyOutput)) = true
  /\ exists u,
       unmount [busyOutput; doneOutput] [false; true] "/mnt/x" false = Some u
       /\ completion u = Threw (Error (stderr busyOutput))
       /\ executed u = [[""; "/mnt/x"]]
       /\ List.length (executed u) = 1
       /\ asked u = 1.
Proof.
  split; [discriminate|]. split; [reflexivity|].
  apply (busy_declined busyOutput [doneOutput] [true] "/mnt/x" false);
    [discriminate | reflexivity].
Defined.

(** C2, as it is stated, fails: the forced call whose command is busy asks
    again, and when the user confirms it executes the command a second time
    and here returns normally. *)
Lemma forced_busy_retries :
  code busyOutput <> 0%Z
  /\ Js.includes "busy" (Js.toLowerCase (stderr busyOutput)) = true
  /\ exists u,
       unmount [busyOutput; doneOutput] [true] "/mnt/x" true = Some u
       /\ completion u = Returned tt
       /\ completion u <> Threw (Error (stderr busyOutput))
       /\ executed u = [["-f"; "/mnt/x"]; ["-f"; "/mnt/x"]]
       /\ asked u = 1.
Proof.
  split; [discriminate|]. split; [reflexivity|].
  eexists. split; [reflexivity|]. cbn. repeat split. discriminate.
Qed.

(** C2, amended: the forced call whose command is busy asks the user once
    more.  When the user declines, it fails with the busy error after its one
    command; when the user confirms, it calls [unmount(mountPoint, true)]
    again, and that call's commands and prompts follow its own.  In all, no
    more commands are executed than one plus the prompts the user
    confirmed. *)
Theorem forced_busy (output : Output) outputs answer answers mountPoint :
  code output <> 0%Z ->
  Js.includes "busy" (Js.toLowerCase (stderr output)) = true ->
  (answer = false ->
   unmount (output :: outputs) (answer :: answers) mountPoint true
   = Some {| completion := Threw (Error (stderr output));
             executed := [["-f"; mountPoint]];
             asked := 1 |})
  /\ (answer = true ->
      forall u, unmount outputs answers mountPoint true = Some u ->
      unmount (output :: outputs) (answer :: answers) mountPoint true
      = Some {| completion := completion u;
                executed := ["-f"; mountPoint] :: executed u;
                asked := S (asked u) |})
  /\ (forall u,
      unmount (output :: outputs) (answer :: answers) mountPoint true = Some u ->
      List.length (executed u) <= S (confirmations (answer :: answers))).
Proof.
  intros Hc Hb.
  pose proof (busy_branch output outputs answer answers mountPoint true Hc Hb) as E.
  split; [|split].
  - intros ->. exact E.
  - intros -> u Hu. rewrite E, Hu. reflexivity.
  - intros u Hu. exact (proj1 (executed_bound _ _ _ _ _ Hu)).
Qed.

Lemma forced_busy_witness :
  code busyOutput <> 0%Z
  /\ Js.includes "busy" (Js.toLowerCase (stderr busyOutput)) = true
  /\ unmount [busyOutput; busyOutput; doneOutput] [true; true] "/mnt/x" true
     = Some {| completion := Returned tt;
               executed := [["-f"; "/mnt/x"]; ["-f"; "/mnt/x"]; ["-f"; "/mnt/x"]];
               asked := 2 |}.
Proof.
  split; [discriminate|]. split; [reflexivity|].
  refine (proj1 (proj2 (forced_busy busyOutput [busyOutput; doneOutput] true [true]
                          "/mnt/x" _ _)) eq_refl
            {| completion := Returned tt;
               executed := [["-f"; "/mnt/x"]; ["-f"; "/mnt/x"]];
               asked := 1 |} _);
    [discriminate | reflexivity | reflexivity].
Defined.

(** C6 at the failing input: the mount point [/mnt/busy] is not mounted, the
    command says so, and the call, which finds "busy" in that text, asks
    whether to force and throws when the user declines. *)
Theorem not_mounted_taken_for_busy :
  code notMountedBusyName <> 0%Z
  /\ Js.includes "not currently mounted" (Js.toLowerCase (stderr notMountedBusyName)) = true
  /\ unmount [notMountedBusyName] [false] "/mnt/busy" false
     = Some {| completion := Threw (Error "umount: /mnt/busy: not currently mounted");
               executed := [[""; "/mnt/busy"]];
               asked := 1 |}.
Proof.
  split; [discriminate|]. split; reflexivity.
Qed.

(** With "busy" nowhere in the text, the same report is a success, with or
    without the force flag. *)
Example not_mounted_succeeds (force : bool) :
  unmount [notMounted] [] "/mnt/x" force
  = Some {| completion := Returned tt;
            executed := [[(if force then "-f" else ""); "/mnt/x"]];
            asked := 0 |}.
Proof.
  apply (not_mounted_not_busy notMounted [] [] "/mnt/x" force);
    [discriminate | reflexivity | reflexivity].
Qed.

End Unmount.

(** ** Per-field objects *)

Lemma get_set_same {A : Type} (field : Field) (v : A) (r : PerField A) :
  get field (set field v r) = v.
Proof. destruct field; reflexivity. Qed.

Lemma get_set_other {A : Type} (field : Field) (v : A) (r : PerField A) :
  get (other field) (set field v r) = get (other field) r.
Proof. destruct field; reflexivity. Qed.

Lemma falsy_false (path : string) : path <> "" -> Js.falsy path = false.
Proof.
  destruct path; [contradiction | reflexivity].
Qed.


Ltac run_fetch :=
  cbn -[Js.split Js.join Js.endsWith Js.sliceInit Js.dropLast Js.includes
        slashSymbol get set listing].

(** ** Resolutions: [fetchSuggestions] *)

Module Resolve.

Section Resolve.

Variable platform : string.
Variable isRemote : string -> bool.
Variable remotes : list string.

(** C9: the resolution of the empty path returns without awaiting anything
    and leaves, as the suggestions of its field, one entry per known remote
    in the order of the registry, a directory whose name and path are the
    remote's name followed by [":/"]; the field has no error and is no
    longer loading. *)
Theorem empty_path_lists_remotes (field : Field) (answers : list Settled) (st : State) :
  exists st',
    run (fetchSuggestions platform isRemote remotes "" field) answers st
    = Some (Returned tt, st')
    /\ get field (suggestions st')
       = map (fun remote =>
                {| IsDir := true;
                   Name := (remote ++ ":/")%string;
                   Path := (remote ++ ":/")%string |}) remotes
    /\ List.length (get field (suggestions st')) = List.length remotes
    /\ get field (error st') = None
    /\ get field (isLoading st') = false.
Proof.
  eexists. split; [reflexivity|].
  destruct field; cbn; rewrite ?length_map; repeat split.
Qed.

(** The code's cut, [path.split(sep).slice(0, -1).join(sep)], is the cut at
    the last separator. *)
Lemma cut_is_parent (path parent : string) :
  cutAtLast (slashSymbol platform) path parent ->
  Js.join (slashSymbol platform)
    (Js.sliceInit (Js.split (slashSymbol platform) path)) = parent.
Proof.
  intros [(last & -> & Hlast) | [Hnone ->]].
  - destruct (JsFacts.slashSymbol_char platform) as [E|E]; rewrite E in *;
      apply (JsFacts.parent_of_path _ parent last Hlast).
  - apply JsFacts.parent_of_name. exact Hnone.
Qed.

(** C8: a resolution of a local path whose listing succeeds, as it is or at
    the parent after the one retry, suggests the entries that are not
    symbolic links, each under the path of the directory that was listed:
    the path itself, or after a retry the path cut at its last separator (the
    empty path when it has none).  Each path is the directory's, the
    separator unless the directory's path ends with it, and the name. *)
Theorem local_listing (path : string) (field : Field) (entries : list DirEntry)
    (st : State) :
  path <> "" ->
  isRemote path = false ->
  (exists st',
     run (fetchSuggestions platform isRemote remotes path field)
         [Fulfilled (VEntries entries)] st = Some (Returned tt, st')
     /\ called (fetchSuggestions platform isRemote remotes path field)
          [Fulfilled (VEntries entries)] = [readDir path]
     /\ get field (suggestions st')
        = listing (slashSymbol platform) path entries
     /\ get field (error st') = None)
  /\ (forall err parent,
        cutAtLast (slashSymbol platform) path parent ->
        exists st',
          run (fetchSuggestions platform isRemote remotes path field)
              [Rejected err; Fulfilled (VEntries entries)] st = Some (Returned tt, st')
          /\ called (fetchSuggestions platform isRemote remotes path field)
               [Rejected err; Fulfilled (VEntries entries)]
             = [readDir path; readDir parent]
          /\ get field (suggestions st')
             = listing (slashSymbol platform) parent entries
          /\ get field (error st') = None).
Proof.
  intros Hne Hloc. split.
  - unfold fetchSuggestions. rewrite (falsy_false _ Hne), Hloc. run_fetch.
    eexists. split; [reflexivity|]. run_fetch.
    rewrite !get_set_same. repeat split.
  - intros err parent Hcut. apply cut_is_parent in Hcut.
    unfold fetchSuggestions. rewrite (falsy_false _ Hne), Hloc. run_fetch.
    rewrite Hcut.
    eexists. split; [reflexivity|]. run_fetch.
    rewrite !get_set_same. repeat split.
Qed.

(** C4, amended: the resolution of a local path whose listing fails twice,
    as it is and at the parent, returns normally with no suggestions for its
    field, the field no longer loading and its error still cleared: the
    second failure is caught where it happens and goes no further. *)
Theorem local_listing_fails_twice (path : string) (field : Field)
    (err1 err2 : Thrown) (st : State) :
  path <> "" ->
  isRemote path = false ->
  exists st',
    run (fetchSuggestions platform isRemote remotes path field)
        [Rejected err1; Rejected err2] st = Some (Returned tt, st')
    /\ called (fetchSuggestions platform isRemote remotes path field)
         [Rejected err1; Rejected err2]
       = [readDir path;
          readDir (Js.join (slashSymbol platform)
                     (Js.sliceInit (Js.split (slashSymbol platform) path)))]
    /\ get field (suggestions st') = []
    /\ get field (error st') = None
    /\ get field (isLoading st') = false.
Proof.
  intros Hne Hloc.
  unfold fetchSuggestions. rewrite (falsy_false _ Hne), Hloc. run_fetch.
  eexists. split; [reflexivity|]. run_fetch.
  rewrite !get_set_same. repeat split.
Qed.

Lemma split_address (pre post : string) :
  Js.includes ":/" pre = false ->
  Js.split ":/" (pre ++ ":/" ++ post) = pre :: Js.split ":/" post.
Proof.
  intros H. unfold Js.split. now rewrite (JsFacts.split_remote_first post pre "" H).
Qed.

Lemma address_not_empty (pre post : string) : (pre ++ ":/" ++ post)%string <> "".
Proof.
  destruct pre; discriminate.
Qed.

(** A remote address whose name, the text before the first [":/"], is empty
    is refused: the field gets the error and no suggestions, and nothing is
    listed. *)
Lemma remote_name_empty (post : string) (field : Field) (answers : list Settled)
    (st : State) :
  isRemote (":/" ++ post) = true ->
  exists st',
    run (fetchSuggestions platform isRemote remotes (":/" ++ post) field) answers st
    = Some (Returned tt, st')
    /\ called (fetchSuggestions platform isRemote remotes (":/" ++ post) field) answers = []
    /\ get field (error st') = Some "Invalid remote path format"
    /\ get field (suggestions st') = []
    /\ get field (isLoading st') = false.
Proof.
  intros Hrem.
  pose proof (split_address "" post eq_refl) as Hsplit.
  change ("" ++ ":/" ++ post)%string with (":/" ++ post)%string in Hsplit.
  assert (Hne : (":/" ++ post)%string <> "") by discriminate.
  unfold fetchSuggestions, fetchRemote.
  rewrite (falsy_false _ Hne), Hrem, Hsplit. run_fetch.
  eexists. split; [reflexivity|]. run_fetch.
  rewrite !get_set_same. repeat split.
Qed.

(** A remote address with a name: the name is the text before the first
    [":/"], and the listing is asked for the pieces that follow, cut at every
    further [":/"] and joined with ["/"], less one trailing ["/"]. *)
Lemma remote_name_first (pre post : string) (field : Field) :
  pre <> "" ->
  Js.includes ":/" pre = false ->
  isRemote (pre ++ ":/" ++ post) = true ->
  nextCall (fetchSuggestions platform isRemote remotes (pre ++ ":/" ++ post) field)
  = Some (listPath pre (stripSlash (Js.join "/" (Js.split ":/" post))) true true).
Proof.
  intros Hpre Hfirst Hrem.
  unfold fetchSuggestions, fetchRemote.
  rewrite (falsy_false _ (address_not_empty pre post)), Hrem,
    (split_address pre post Hfirst), (falsy_false _ Hpre).
  reflexivity.
Qed.

(** With a single [":/"] the sub-path is all that follows it, less one
    trailing ["/"]. *)
Lemma remote_single_separator (pre post : string) (field : Field) :
  pre <> "" ->
  Js.includes ":/" pre = false ->
  Js.includes ":/" post = false ->
  isRemote (pre ++ ":/" ++ post) = true ->
  nextCall (fetchSuggestions platform isRemote remotes (pre ++ ":/" ++ post) field)
  = Some (listPath pre (stripSlash post) true true).
Proof.
  intros Hpre Hfirst Hpost Hrem.
  rewrite (remote_name_first pre post field Hpre Hfirst Hrem).
  rewrite (JsFacts.split_none _ _ Hpost). reflexivity.
Qed.

End Resolve.

(** The resolution of ["/tmp/foo.txt"], a file: the retry lists ["/tmp"], and
    the suggestions are under ["/tmp"]. *)
Lemma local_listing_witness :
  "/tmp/foo.txt" <> ""
  /\ isRemotePath "/tmp/foo.txt" = false
  /\ cutAtLast (slashSymbol "linux") "/tmp/foo.txt" "/tmp"
  /\ exists st',
       run (fetchSuggestions "linux" isRemotePath [] "/tmp/foo.txt" source)
           [Rejected (Error "Not a directory"); Fulfilled (VEntries tmpEntries)]
           (initialState "/tmp/foo.txt" "")
       = Some (Returned tt, st')
       /\ called (fetchSuggestions "linux" isRemotePath [] "/tmp/foo.txt" source)
            [Rejected (Error "Not a directory"); Fulfilled (VEntries tmpEntries)]
          = [readDir "/tmp/foo.txt"; readDir "/tmp"]
       /\ get source (suggestions st')
          = listing (slashSymbol "linux") "/tmp" tmpEntries
       /\ get source (error st') = None.
Proof.
  assert (Hcut : cutAtLast (slashSymbol "linux") "/tmp/foo.txt" "/tmp")
    by (left; exists "foo.txt"; split; reflexivity).
  split; [discriminate|]. split; [reflexivity|]. split; [exact Hcut|].
  refine (proj2 (local_listing "linux" isRemotePath [] "/tmp/foo.txt" source
                   tmpEntries (initialState "/tmp/foo.txt" "") _ _)
            (Error "Not a directory") "/tmp" Hcut);
    [discriminate | reflexivity].
Defined.

Example tmp_listing :
  listing "/" "/tmp" tmpEntries
  = [ {| IsDir := false; Name := "foo.txt"; Path := "/tmp/foo.txt" |};
      {| IsDir := true; Name := "sub"; Path := "/tmp/sub" |} ].
Proof. reflexivity. Qed.

(** C4, as it is stated, fails: after the two failures the field has no
    suggestions, and no error either. *)
Lemma second_failure_not_reported :
  "/tmp/nope/x" <> ""
  /\ isRemotePath "/tmp/nope/x" = false
  /\ exists st',
       run (fetchSuggestions "linux" isRemotePath [] "/tmp/nope/x" source)
           [Rejected (Error "No such file or directory");
            Rejected (Error "No such file or directory")]
           (initialState "/tmp/nope/x" "")
       = Some (Returned tt, st')
       /\ get source (suggestions st') = []
       /\ get source (error st') = None
       /\ ~ (exists message, get source (error st') = Some message).
Proof.
  split; [discriminate|]. split; [reflexivity|].
  eexists. split; [reflexivity|]. cbn. repeat split.
  intros [message H]. discriminate.
Qed.

Lemma local_listing_fails_twice_witness :
  "/tmp/nope/x" <> ""
  /\ isRemotePath "/tmp/nope/x" = false
  /\ exists st',
       run (fetchSuggestions "linux" isRemotePath [] "/tmp/nope/x" dest)
           [Rejected (Error "No such file or directory"); Rejected NonError]
           (initialState "" "/tmp/nope/x")
       = Some (Returned tt, st')
       /\ called (fetchSuggestions "linux" isRemotePath [] "/tmp/nope/x" dest)
            [Rejected (Error "No such file or directory"); Rejected NonError]
          = [readDir "/tmp/nope/x"; readDir "/tmp/nope"]
       /\ get dest (suggestions st') = []
       /\ get dest (error st') = None
       /\ get dest (isLoading st') = false.
Proof.
  split; [discriminate|]. split; [reflexivity|].
  apply (local_listing_fails_twice "linux" isRemotePath [] "/tmp/nope/x" dest);
    [discriminate | reflexivity].
Defined.

(** C5 at the failing input: in ["gdrive:/a:/b"] the text after the first
    [":/"] is ["a:/b"], and the listing is asked for ["a/b"]. *)
Theorem second_separator_lost (platform : string) (remotes : list string)
    (field : Field) :
  isRemotePath "gdrive:/a:/b" = true
  /\ Js.split ":/" "gdrive:/a:/b" = ["gdrive"; "a"; "b"]
  /\ nextCall (fetchSuggestions platform isRemotePath remotes "gdrive:/a:/b" field)
     = Some (listPath "gdrive" "a/b" true true)
  /\ nextCall (fetchSuggestions platform isRemotePath remotes "gdrive:/a:/b" field)
     <> Some (listPath "gdrive" "a:/b" true true).
Proof.
  split; [reflexivity|]. split; [reflexivity|].
  split; [reflexivity|]. discriminate.
Qed.

Example classify_scenario (platform : string) (remotes : list string) (field : Field) :
  nextCall (fetchSuggestions platform isRemotePath remotes "gdrive:/Photos/2023/" field)
  = Some (listPath "gdrive" "Photos/2023" true true).
Proof. reflexivity. Qed.

End Resolve.

(** ** The folder picker: [handleBrowse] *)

Module Browse.

(** A folder is chosen: the lock is given back and the field's text is the
    folder. *)
Lemma selected (sourcePath destPath selected : string) (field : Field) (st : State) :
  selected <> "" ->
  exists st',
    run (handleBrowse sourcePath destPath field)
        [Fulfilled VUndefined; Fulfilled (VSelected (Some selected)); Fulfilled VUndefined] st
    = Some (Returned tt, st')
    /\ called (handleBrowse sourcePath destPath field)
         [Fulfilled VUndefined; Fulfilled (VSelected (Some selected)); Fulfilled VUndefined]
       = [lockWindows;
          open true false (match field with source => sourcePath | dest => destPath end);
          unlockWindows]
    /\ windowsLocked st' = false
    /\ rawText field st' = selected
    /\ error st' = error st.
Proof.
  intros Hsel. destruct selected as [|a selected]; [contradiction|].
  destruct field; cbn; eexists; repeat split.
Qed.

(** The dialog is dismissed: the lock is given back and nothing else
    changes. *)
Lemma cancelled (sourcePath destPath : string) (field : Field) (st : State) :
  exists st',
    run (handleBrowse sourcePath destPath field)
        [Fulfilled VUndefined; Fulfilled (VSelected None); Fulfilled VUndefined] st
    = Some (Returned tt, st')
    /\ windowsLocked st' = false
    /\ rawText field st' = rawText field st
    /\ error st' = error st.
Proof.
  destruct field; cbn; eexists; repeat split.
Qed.

(** The dialog cannot be opened: the error of the field is set and
    [unlockWindows] is not called, so that the lock taken before stays. *)
Lemma picker_fails (sourcePath destPath : string) (field : Field) (err : Thrown)
    (st : State) :
  exists st',
    run (handleBrowse sourcePath destPath field)
        [Fulfilled VUndefined; Rejected err] st
    = Some (Returned tt, st')
    /\ called (handleBrowse sourcePath destPath field)
         [Fulfilled VUndefined; Rejected err]
       = [lockWindows;
          open true false (match field with source => sourcePath | dest => destPath end)]
    /\ windowsLocked st' = true
    /\ get field (error st') = Some "Failed to open folder picker".
Proof.
  destruct field; cbn; eexists; repeat split.
Qed.

(** C3 at the failing input: the folder button of the source field is
    pressed, the windows are locked, and the dialog fails to open.  The call
    returns with the field's error set, without calling [unlockWindows], and
    the windows are still locked. *)
Theorem picker_failure_keeps_lock :
  exists st',
    run (handleBrowse "/home/me" "" source)
        [Fulfilled VUndefined; Rejected (Error "dialog unavailable")]
        (initialState "/home/me" "")
    = Some (Returned tt, st')
    /\ called (handleBrowse "/home/me" "" source)
         [Fulfilled VUndefined; Rejected (Error "dialog unavailable")]
       = [lockWindows; open true false "/home/me"]
    /\ windowsLocked (initialState "/home/me" "") = false
    /\ windowsLocked st' = true
    /\ get source (error st') = Some "Failed to open folder picker".
Proof.
  eexists. split; [reflexivity|]. cbn. repeat split.
Qed.

End Browse.

(** ** The two fields are independent *)

Module Frame.

Lemma sameField_refl (field : Field) (st : State) : sameField field st st.
Proof. repeat split. Qed.

Lemma sameField_trans (field : Field) (st1 st2 st3 : State) :
  sameField field st1 st2 -> sameField field st2 st3 -> sameField field st1 st3.
Proof.
  intros (A1 & A2 & A3 & A4) (B1 & B2 & B3 & B4).
  repeat split; etransitivity; eassumption.
Qed.

Lemma effect_same (field : Field) (c : Call) (r : Settled) (st : State) :
  sameField field st (effect c r st).
Proof.
  destruct c, r, field; repeat split.
Qed.

Lemma leaves_bind (field : Field) {A B : Type} (m : Prog A) (f : A -> Prog B) :
  leaves field m -> (forall a, leaves field (f a)) -> leaves field (bind m f).
Proof.
  intros Hm Hf. induction m as [a|err|u k IH|c k IH]; cbn in *.
  - apply Hf.
  - exact I.
  - destruct Hm as [Hu Hk]. split; [exact Hu | apply IH, Hk].
  - intros r. apply IH, Hm.
Qed.

Lemma leaves_try_catch (field : Field) {A : Type} (m : Prog A)
    (handler : Thrown -> Prog A) :
  leaves field m -> (forall err, leaves field (handler err)) ->
  leaves field (try_catch m handler).
Proof.
  intros Hm Hh. induction m as [a|err|u k IH|c k IH]; cbn in *.
  - exact I.
  - apply Hh.
  - destruct Hm as [Hu Hk]. split; [exact Hu | apply IH, Hk].
  - intros r. apply IH, Hm.
Qed.

Lemma leaves_try_finally (field : Field) {A : Type} (m : Prog A) (fin : Prog unit) :
  leaves field m -> leaves field fin -> leaves field (try_finally m fin).
Proof.
  intros Hm Hf. induction m as [a|err|u k IH|c k IH]; cbn in *.
  - apply leaves_bind; [exact Hf | intros; exact I].
  - apply leaves_bind; [exact Hf | intros; exact I].
  - destruct Hm as [Hu Hk]. split; [exact Hu | apply IH, Hk].
  - intros r. apply IH, Hm.
Qed.

Lemma leaves_setSuggestions (field : Field) (v : list Suggestion) :
  leaves (other field) (setSuggestions (fun prev => set field v prev)).
Proof.
  split; [|exact I]. intros st. destruct field; repeat split.
Qed.

Lemma leaves_setIsLoading (field : Field) (v : bool) :
  leaves (other field) (setIsLoading (fun prev => set field v prev)).
Proof.
  split; [|exact I]. intros st. destruct field; repeat split.
Qed.

Lemma leaves_setError (field : Field) (v : option string) :
  leaves (other field) (setError (fun prev => set field v prev)).
Proof.
  split; [|exact I]. intros st. destruct field; repeat split.
Qed.

Lemma leaves_awaitReadDir (field : Field) (path : string) :
  leaves field (awaitReadDir path).
Proof.
  intros [[]|]; exact I.
Qed.

Lemma leaves_awaitListPath (field : Field) (remote path : string) :
  leaves field (awaitListPath remote path).
Proof.
  intros [[]|]; exact I.
Qed.

Lemma leaves_awaitOpen (field : Field) (defaultPath : string) :
  leaves field (awaitOpen defaultPath).
Proof.
  intros [[]|]; exact I.
Qed.

Lemma leaves_awaitUnit (field : Field) (c : Call) :
  leaves field (awaitUnit c).
Proof.
  intros [|]; exact I.
Qed.

Create HintDb frame.

#[local] Hint Resolve leaves_setSuggestions leaves_setIsLoading leaves_setError
  leaves_awaitReadDir leaves_awaitListPath leaves_awaitOpen leaves_awaitUnit : frame.

Lemma fetch_leaves (platform : string) (isRemote : string -> bool)
    (remotes : list string) (path : string) (field : Field) :
  leaves (other field) (fetchSuggestions platform isRemote remotes path field).
Proof.
  unfold fetchSuggestions.
  apply leaves_bind; [auto with frame | intros _].
  apply leaves_bind; [auto with frame | intros _].
  apply leaves_try_finally; [|auto with frame].
  apply leaves_try_catch.
  - destruct (Js.falsy path); [auto with frame|].
    destruct (negb (isRemote path)).
    + apply leaves_bind.
      * unfold readLocal.
        apply leaves_try_catch;
          [apply leaves_bind; [auto with frame | intros; exact I] | intros _].
        apply leaves_try_catch;
          [apply leaves_bind; [auto with frame | intros; exact I] | intros; exact I].
      * intros [localEntries cleanedPath]. auto with frame.
    + unfold fetchRemote. destruct (Js.split ":/" path) as [|remote pathParts]; [exact I|].
      destruct (Js.falsy remote); [exact I|].
      apply leaves_bind; [auto with frame | intros items; auto with frame].
  - intros err. apply leaves_bind; [auto with frame | intros _; auto with frame].
Qed.

Lemma browse_leaves (sourcePath destPath : string) (field : Field) :
  leaves (other field) (handleBrowse sourcePath destPath field).
Proof.
  unfold handleBrowse. apply leaves_try_catch; [|intros _; auto with frame].
  apply leaves_bind; [auto with frame | intros _].
  apply leaves_bind; [auto with frame | intros selected].
  apply leaves_bind; [auto with frame | intros _].
  destruct (truthy selected) as [s|]; [|exact I].
  destruct field; (split; [intros st; repeat split | exact I]).
Qed.

Lemma leaves_advance (field : Field) {A : Type} (p : Prog A) : forall st,
  leaves field p ->
  sameField field st (snd (advance p st)) /\ leaves field (fst (advance p st)).
Proof.
  induction p as [a|err|u k IH|c k IH]; intros st Hp; cbn [advance fst snd].
  - split; [apply sameField_refl | exact Hp].
  - split; [apply sameField_refl | exact Hp].
  - destruct Hp as [Hu Hk]. destruct (IH (u st) Hk) as [H1 H2].
    split; [|exact H2]. eapply sameField_trans; [apply Hu | exact H1].
  - split; [apply sameField_refl | exact Hp].
Qed.

Lemma leaves_resume (field : Field) {A : Type} (p q : Prog A) (r : Settled)
    (st st' : State) :
  leaves field p -> resume p r st = Some (q, st') ->
  sameField field st st' /\ leaves field q.
Proof.
  intros Hp H. destruct p as [a|err|u k|c k]; try discriminate.
  cbn [resume] in H. destruct (accepts c r); [|discriminate].
  injection H as H. cbn [leaves] in Hp.
  destruct (leaves_advance field (k r) (effect c r st) (Hp r)) as [H1 H2].
  rewrite H in H1, H2. cbn [fst snd] in H1, H2. split; [|exact H2].
  eapply sameField_trans; [apply effect_same | exact H1].
Qed.

Lemma leaves_feed (field : Field) {A : Type} (answers : list Settled) :
  forall (p q : Prog A) (st st' : State),
  leaves field p -> feed p answers st = Some (q, st') ->
  sameField field st st' /\ leaves field q.
Proof.
  induction answers as [|r answers IH]; intros p q st st' Hp H; cbn [feed] in H.
  - injection H as <- <-. split; [apply sameField_refl | exact Hp].
  - destruct (resume p r st) as [[p1 st1]|] eqn:E; [|discriminate].
    destruct (leaves_resume field p p1 r st st1 Hp E) as [H1 H2].
    destruct (IH p1 q st1 st' H2 H) as [H3 H4].
    split; [|exact H4]. eapply sameField_trans; eassumption.
Qed.

Lemma leaves_exec (field : Field) {A : Type} (p q : Prog A) (answers : list Settled)
    (st st' : State) :
  leaves field p -> exec p answers st = Some (q, st') -> sameField field st st'.
Proof.
  intros Hp H. unfold exec in H.
  destruct (leaves_advance field p st Hp) as [H1 H2].
  destruct (advance p st) as [p0 st0]. cbn [fst snd] in H1, H2.
  destruct (leaves_feed field answers p0 q st0 st' H2 H) as [H3 _].
  eapply sameField_trans; eassumption.
Qed.

(** C10: a resolution or a browse of one field, at whatever point it is
    (suspended at a call or done) and whatever the calls answered, failures
    included, has left the text, the suggestions, the loading flag and the
    error of the other field as they were. *)
Theorem other_field_untouched (platform : string) (isRemote : string -> bool)
    (remotes : list string) (sourcePath destPath path : string) (field : Field)
    (p rest : Prog unit) (answers : list Settled) (st st' : State) :
  p = fetchSuggestions platform isRemote remotes path field
  \/ p = handleBrowse sourcePath destPath field ->
  exec p answers st = Some (rest, st') ->
  rawText (other field) st' = rawText (other field) st
  /\ get (other field) (suggestions st') = get (other field) (suggestions st)
  /\ get (other field) (isLoading st') = get (other field) (isLoading st)
  /\ get (other field) (error st') = get (other field) (error st).
Proof.
  intros Hp H. apply (leaves_exec (other field) p rest answers st st'); [|exact H].
  destruct Hp as [-> | ->]; [apply fetch_leaves | apply browse_leaves].
Qed.

Lemma other_field_untouched_witness :
  exists rest st',
    exec (fetchSuggestions "linux" isRemotePath ["gdrive"] "/tmp/nope/x" source)
         [Rejected (Error "No such file or directory"); Rejected NonError]
         busyDest
    = Some (rest, st')
    /\ rawText dest st' = "gdrive:/Photos"
    /\ get dest (suggestions st') = [remoteItem "gdrive"]
    /\ get dest (isLoading st') = true
    /\ get dest (error st') = Some "Failed to open folder picker".
Proof.
  eexists. eexists. split; [reflexivity|].
  apply (other_field_untouched "linux" isRemotePath ["gdrive"] "" "" "/tmp/nope/x"
           source
           (fetchSuggestions "linux" isRemotePath ["gdrive"] "/tmp/nope/x" source)
           (Ret tt)
           [Rejected (Error "No such file or directory"); Rejected NonError]
           busyDest);
    [left; reflexivity | reflexivity].
Defined.

(** The same on the event loop: as long as the resolutions and browses that
    are started are those of one field, in whatever order their calls are
    answered, the state of the other field stays as it was. *)

Lemma Forall_replace {A : Type} (P : A -> Prop) (x : A) : forall (l : list A) (i : nat),
  Forall P l -> P x -> Forall P (replace i x l).
Proof.
  induction l as [|y l IH]; intros i Hl Hx; cbn.
  - constructor.
  - inversion Hl; subst. destruct i; constructor; auto.
Qed.

Lemma leaves_step (platform : string) (isRemote : string -> bool)
    (remotes : list string) (field : Field) (l l' : Loop) (e : Event) :
  Forall (leaves (other field)) (tasks l) ->
  onField field e ->
  step platform isRemote remotes l e = Some l' ->
  sameField (other field) (state l) (state l')
  /\ Forall (leaves (other field)) (tasks l').
Proof.
  intros Hl He H. destruct e as [path f|f|id r]; cbn [onField step] in *.
  - subst f. injection H as <-. unfold spawn.
    pose proof (leaves_advance (other field) _ (state l)
                  (fetch_leaves platform isRemote remotes path field)) as [H1 H2].
    destruct (advance _ (state l)) as [p' st']. cbn [fst snd state tasks] in *.
    split; [exact H1|]. apply Forall_app. split; [exact Hl | now constructor].
  - subst f. injection H as <-. unfold spawn.
    pose proof (leaves_advance (other field) _ (state l)
                  (browse_leaves (sourcePath (state l)) (destPath (state l)) field))
      as [H1 H2].
    destruct (advance _ (state l)) as [p' st']. cbn [fst snd state tasks] in *.
    split; [exact H1|]. apply Forall_app. split; [exact Hl | now constructor].
  - destruct (nth_error (tasks l) id) as [p|] eqn:E; [|discriminate].
    destruct (resume p r (state l)) as [[p' st']|] eqn:R; [|discriminate].
    injection H as <-. cbn [state tasks].
    assert (Hp : leaves (other field) p).
    { rewrite Forall_forall in Hl. apply Hl. eapply nth_error_In; eassumption. }
    destruct (leaves_resume (other field) p p' r (state l) st' Hp R) as [H1 H2].
    split; [exact H1|]. apply Forall_replace; assumption.
Qed.

Lemma leaves_steps (platform : string) (isRemote : string -> bool)
    (remotes : list string) (field : Field) (es : list Event) : forall (l l' : Loop),
  Forall (leaves (other field)) (tasks l) ->
  Forall (onField field) es ->
  steps platform isRemote remotes l es = Some l' ->
  sameField (other field) (state l) (state l').
Proof.
  induction es as [|e es IH]; intros l l' Hl Hes H; cbn [steps] in H.
  - injection H as <-. apply sameField_refl.
  - inversion Hes as [|? ? He Hes']; subst.
    destruct (step platform isRemote remotes l e) as [l1|] eqn:E; [|discriminate].
    destruct (leaves_step platform isRemote remotes field l l1 e Hl He E)
      as [Hstate Htasks].
    eapply sameField_trans; [exact Hstate | eapply IH; eassumption].
Qed.

End Frame.

(** ** Concurrent resolutions of one field *)

Module Order.

Lemma advance_fst {A : Type} (p : Prog A) : forall sa sb,
  fst (advance p sa) = fst (advance p sb).
Proof.
  induction p as [a|err|u k IH|c k IH]; intros sa sb; cbn [advance fst];
    try reflexivity.
  apply IH.
Qed.

Lemma run_advance {A : Type} (p : Prog A) (answers : list Settled) : forall st,
  run p answers st = run (fst (advance p st)) answers (snd (advance p st)).
Proof.
  induction p as [a|err|u k IH|c k IH]; intros st; cbn [advance fst snd run];
    try reflexivity.
  apply IH.
Qed.

(** Whether and how a run ends does not depend on the state it starts in. *)
Lemma run_defined {A : Type} (p : Prog A) : forall answers sa sb c sa',
  run p answers sa = Some (c, sa') -> exists sb', run p answers sb = Some (c, sb').
Proof.
  induction p as [a|err|u k IH|call k IH]; intros answers sa sb c sa' H;
    cbn [run] in *.
  - injection H as <- _. eexists; reflexivity.
  - injection H as <- _. eexists; reflexivity.
  - eapply IH; eassumption.
  - destruct answers as [|r answers]; [discriminate|].
    destruct (accepts call r); [|discriminate].
    eapply IH; eassumption.
Qed.

Lemma effect_suggestions (c : Call) (r : Settled) (st : State) :
  suggestions (effect c r st) = suggestions st.
Proof.
  destruct c, r; reflexivity.
Qed.

Lemma settles_run (field : Field) {A : Type} (p : Prog A) : forall answers st c st',
  settles field p -> run p answers st = Some (c, st') ->
  get field (suggestions st') = get field (suggestions st).
Proof.
  induction p as [a|err|u k IH|call k IH]; intros answers st c st' Hp H;
    cbn [run settles] in *.
  - now injection H as _ <-.
  - now injection H as _ <-.
  - destruct Hp as [Hu Hk]. rewrite (IH _ _ _ _ Hk H). apply Hu.
  - contradiction.
Qed.

Lemma settles_advance (field : Field) {A : Type} (p : Prog A) : forall st,
  settles field p -> finished (fst (advance p st)) = true.
Proof.
  induction p as [a|err|u k IH|call k IH]; intros st Hp;
    cbn [advance fst settles finished] in *; try reflexivity.
  - apply IH, Hp.
  - contradiction.
Qed.

(** What a resolution leaves in the suggestions of its field is its own
    result, whatever was there before. *)
Lemma writes_run (field : Field) {A : Type} (p : Prog A) :
  forall answers sa sb ca cb sa' sb',
  writes field p ->
  run p answers sa = Some (ca, sa') ->
  run p answers sb = Some (cb, sb') ->
  get field (suggestions sa') = get field (suggestions sb').
Proof.
  induction p as [a|err|u k IH|call k IH];
    intros answers sa sb ca cb sa' sb' Hp Ha Hb; cbn [run writes] in *.
  - contradiction.
  - contradiction.
  - destruct Hp as [[[v Hv] Hk] | Hk].
    + rewrite (settles_run field k _ _ _ _ Hk Ha), (settles_run field k _ _ _ _ Hk Hb).
      now rewrite !Hv.
    + eapply IH; eassumption.
  - destruct answers as [|r answers]; [discriminate|].
    destruct (accepts call r); [|discriminate].
    eapply IH; [apply Hp | eassumption | eassumption].
Qed.

Lemma writes_advance (field : Field) {A : Type} (p : Prog A) : forall st,
  writes field p ->
  finished (fst (advance p st)) = true \/ writes field (fst (advance p st)).
Proof.
  induction p as [a|err|u k IH|call k IH]; intros st Hp;
    cbn [advance fst writes] in *.
  - contradiction.
  - contradiction.
  - destruct Hp as [[_ Hk] | Hk].
    + left. apply (settles_advance field k _ Hk).
    + apply IH, Hk.
  - right. exact Hp.
Qed.

Ltac last_write :=
  left; split;
  [ eexists; intros st; cbn [suggestions]; apply get_set_same
  | cbn; repeat split ].

Ltac not_yet :=
  right; cbn [bind try_catch try_finally update writes].

(** Every way through [fetchSuggestions] ends with the suggestions of the
    field written by it. *)
Lemma fetch_writes (platform : string) (isRemote : string -> bool)
    (remotes : list string) (path : string) (field : Field) :
  writes field (fetchSuggestions platform isRemote remotes path field).
Proof.
  unfold fetchSuggestions, setIsLoading, setError, setSuggestions.
  cbn [bind try_catch try_finally update writes].
  not_yet. not_yet.
  destruct (Js.falsy path).
  { cbn [bind try_catch try_finally update writes]. last_write. }
  destruct (negb (isRemote path)).
  - unfold readLocal, awaitReadDir.
    cbn [bind try_catch try_finally update writes].
    intros [[entries|items|selected|]|err];
      cbn [bind try_catch try_finally update writes];
      try last_write;
      intros [[entries'|items'|selected'|]|err'];
      cbn [bind try_catch try_finally update writes];
      last_write.
  - unfold fetchRemote, awaitListPath, setSuggestions.
    destruct (Js.split ":/" path) as [|remote pathParts].
    { cbn [bind try_catch try_finally update writes]. not_yet. last_write. }
    destruct (Js.falsy remote).
    { cbn [bind try_catch try_finally update writes]. not_yet. last_write. }
    cbn [bind try_catch try_finally update writes].
    intros [[entries|items|selected|]|err];
      cbn [bind try_catch try_finally update writes];
      first [last_write | not_yet; last_write].
Qed.

Lemma feed_run {A : Type} (answers : list Settled) : forall (p q : Prog A) st st',
  feed p answers st = Some (q, st') ->
  finished q = true ->
  exists c, run p answers st = Some (c, st').
Proof.
  induction answers as [|r answers IH]; intros p q st st' H Hq; cbn [feed] in H.
  - injection H as <- <-. destruct p; try discriminate; eexists; reflexivity.
  - destruct p as [a|err|u k|call k]; try discriminate.
    cbn [resume] in H. cbn [run].
    destruct (accepts call r); [|discriminate].
    rewrite run_advance.
    destruct (advance (k r) (effect call r st)) as [p1 st1]. cbn [fst snd].
    eapply IH; eassumption.
Qed.

Lemma feed_finished {A : Type} (p q : Prog A) (r : Settled) (answers : list Settled)
    (st st' : State) :
  finished p = true -> feed p (r :: answers) st = Some (q, st') -> False.
Proof.
  intros Hp H. destruct p; try discriminate.
Qed.

Lemma nth_error_replace_same {A : Type} (x : A) : forall (l : list A) (i : nat) (y : A),
  nth_error l i = Some y -> nth_error (replace i x l) i = Some x.
Proof.
  induction l as [|z l IH]; intros i y H; destruct i; cbn in *; try discriminate.
  - reflexivity.
  - eapply IH; eassumption.
Qed.

Lemma nth_error_replace_other {A : Type} (x : A) : forall (l : list A) (i j : nat),
  j <> i -> nth_error (replace i x l) j = nth_error l j.
Proof.
  induction l as [|z l IH]; intros i j Hne; cbn; [reflexivity|].
  destruct i, j; cbn; try reflexivity; [contradiction|].
  apply IH. intros ->. now apply Hne.
Qed.

Section Loop.

Variable platform : string.
Variable isRemote : string -> bool.
Variable remotes : list string.

Lemma steps_app (es1 es2 : list Event) : forall l,
  steps platform isRemote remotes l (es1 ++ es2)
  = match steps platform isRemote remotes l es1 with
    | Some l1 => steps platform isRemote remotes l1 es2
    | None => None
    end.
Proof.
  induction es1 as [|e es1 IH]; intros l; cbn [steps app]; [reflexivity|].
  destruct (step platform isRemote remotes l e); [apply IH | reflexivity].
Qed.

(** Settling the promises of task [i] resumes that task and leaves the other
    tasks where they are. *)
Lemma settle_task (i : nat) (answers : list Settled) : forall l l',
  steps platform isRemote remotes l (map (Settle i) answers) = Some l' ->
  (forall j, j <> i -> nth_error (tasks l') j = nth_error (tasks l) j)
  /\ (forall p, nth_error (tasks l) i = Some p ->
      exists q, feed p answers (state l) = Some (q, state l')
                /\ nth_error (tasks l') i = Some q).
Proof.
  induction answers as [|r answers IH]; intros l l' H; cbn [map steps] in H.
  - injection H as <-. split; [reflexivity|].
    intros p Hp. exists p. split; [reflexivity | exact Hp].
  - cbn [step] in H.
    destruct (nth_error (tasks l) i) as [p|] eqn:E; [|discriminate].
    destruct (resume p r (state l)) as [[p1 st1]|] eqn:R; [|discriminate].
    destruct (IH _ _ H) as [Hother Hsame]. cbn [state tasks] in *.
    split.
    + intros j Hj. rewrite (Hother j Hj). now apply nth_error_replace_other.
    + intros p0 Hp0. injection Hp0 as <-.
      destruct (Hsame p1 (nth_error_replace_same p1 _ _ _ E)) as (q & Hq & Hn).
      exists q. split; [|exact Hn]. cbn [feed]. rewrite R. exact Hq.
Qed.

Lemma spawn_tasks (p : Prog unit) (l : Loop) :
  tasks (spawn p l) = tasks l ++ [fst (advance p (state l))].
Proof.
  unfold spawn. destruct (advance p (state l)); reflexivity.
Qed.

End Loop.

(** C1, as it is stated, fails: two resolutions of the source field are
    started, for ["/a"] and then for ["/ab"]; the listing of ["/ab"] arrives
    first and the listing of ["/a"] after it.  Both tasks are done, and the
    suggestions are those of ["/a"], the resolution started first. *)
Lemma stale_listing_applied :
  exists l',
    steps "linux" isRemotePath [] (emptyLoop "/ab" "")
      [Fetch "/a" source; Fetch "/ab" source;
       Settle 1 (Fulfilled (VEntries listingAB));
       Settle 0 (Fulfilled (VEntries listingA))] = Some l'
    /\ tasks l' = [Ret tt; Ret tt]
    /\ get source (suggestions (state l'))
       = [ {| IsDir := true; Name := "one"; Path := "/a/one" |} ]
    /\ (exists st2,
          run (fetchSuggestions "linux" isRemotePath [] "/ab" source)
              [Fulfilled (VEntries listingAB)] (initialState "/ab" "")
          = Some (Returned tt, st2)
          /\ get source (suggestions st2)
             = [ {| IsDir := false; Name := "two"; Path := "/ab/two" |} ]
          /\ get source (suggestions (state l')) <> get source (suggestions st2)).
Proof.
  eexists. split; [reflexivity|]. split; [reflexivity|]. split; [reflexivity|].
  eexists. split; [reflexivity|]. split; [reflexivity|]. cbn. discriminate.
Qed.

Lemma other_involutive (field : Field) : other (other field) = field.
Proof. destruct field; reflexivity. Qed.

Lemma strip_advance {A : Type} (p : Prog A) : forall st, fst (advance p st) = strip p.
Proof.
  induction p as [a|err|u k IH|c k IH]; intros st; cbn [advance strip fst];
    try reflexivity.
  apply IH.
Qed.

Lemma resume_strip {A : Type} (p q : Prog A) (r : Settled) (st st' : State) :
  resume p r st = Some (q, st') ->
  exists c k,
    p = Await c k /\ accepts c r = true
    /\ advance (k r) (effect c r st) = (q, st')
    /\ q = strip (k r).
Proof.
  intros H. destruct p as [a|err|u k|c k]; try discriminate.
  cbn [resume] in H. destruct (accepts c r) eqn:E; [|discriminate].
  injection H as H. exists c, k.
  split; [reflexivity|]. split; [exact E|]. split; [exact H|].
  rewrite <- (strip_advance (k r) (effect c r st)), H. reflexivity.
Qed.

(** A run goes through the programs that [follow] gives. *)
Lemma run_follow {A : Type} (answers : list Settled) :
  forall (p q : Prog A) (rest : list Settled) (sa : State),
  follow (strip p) answers = Some q ->
  exists sb, run p (answers ++ rest) sa = run q rest sb.
Proof.
  induction answers as [|r answers IH]; intros p q rest sa H; cbn [follow app] in *.
  - injection H as <-. exists (snd (advance p sa)).
    rewrite (run_advance p rest sa), strip_advance. reflexivity.
  - rewrite (run_advance p _ sa), strip_advance.
    destruct (strip p) as [a|err|u k|c k]; try discriminate.
    cbn [run]. destruct (accepts c r); [|discriminate].
    apply IH. exact H.
Qed.

Lemma writes_strip (field : Field) {A : Type} (p : Prog A) :
  writes field p -> finished (strip p) = true \/ writes field (strip p).
Proof.
  intros H. rewrite <- (strip_advance p (initialState "" "")).
  apply writes_advance. exact H.
Qed.

Lemma writes_follow (field : Field) {A : Type} (answers : list Settled) :
  forall (p q : Prog A),
  finished p = true \/ writes field p ->
  follow p answers = Some q ->
  finished q = true \/ writes field q.
Proof.
  induction answers as [|r answers IH]; intros p q Hp H; cbn [follow] in H.
  - now injection H as <-.
  - destruct p as [a|err|u k|c k]; try discriminate.
    destruct (accepts c r); [|discriminate].
    destruct Hp as [Hp|Hp]; [discriminate|].
    apply (IH (strip (k r)) q); [|exact H].
    apply writes_strip. apply Hp.
Qed.

Lemma starts_app (es1 es2 : list Event) : starts (es1 ++ es2) = starts es1 ++ starts es2.
Proof. apply filter_app. Qed.

Lemma started_app (es1 es2 : list Event) :
  started (es1 ++ es2) = started es1 + started es2.
Proof.
  unfold started. now rewrite starts_app, length_app.
Qed.

Lemma length_replace {A : Type} (x : A) : forall (l : list A) (i : nat),
  List.length (replace i x l) = List.length l.
Proof.
  induction l as [|y l IH]; intros i; cbn; [reflexivity|].
  destruct i; cbn; [reflexivity | now rewrite IH].
Qed.

Section Schedule.

Variable platform : string.
Variable isRemote : string -> bool.
Variable remotes : list string.

Lemma steps_snoc (es : list Event) (e : Event) (l l' : Loop) :
  steps platform isRemote remotes l (es ++ [e]) = Some l' ->
  exists l1,
    steps platform isRemote remotes l es = Some l1
    /\ step platform isRemote remotes l1 e = Some l'.
Proof.
  rewrite steps_app. intros H.
  destruct (steps platform isRemote remotes l es) as [l1|]; [|discriminate].
  exists l1. split; [reflexivity|]. cbn [steps] in H.
  destruct (step platform isRemote remotes l1 e); [exact H | discriminate].
Qed.

Lemma step_length (l l' : Loop) (e : Event) :
  step platform isRemote remotes l e = Some l' ->
  List.length (tasks l') = List.length (tasks l) + started [e].
Proof.
  intros H. destruct e as [path f|f|id r]; cbn [step] in H.
  - injection H as <-. rewrite spawn_tasks, length_app. reflexivity.
  - injection H as <-. rewrite spawn_tasks, length_app. reflexivity.
  - destruct (nth_error (tasks l) id) as [p|]; [|discriminate].
    destruct (resume p r (state l)) as [[p' st']|]; [|discriminate].
    injection H as <-. cbn [tasks]. rewrite length_replace. cbn. lia.
Qed.

Lemma steps_length (es : list Event) : forall (l l' : Loop),
  steps platform isRemote remotes l es = Some l' ->
  List.length (tasks l') = List.length (tasks l) + started es.
Proof.
  induction es as [|e es IH]; intros l l' H; cbn [steps] in H.
  - injection H as <-. cbn. lia.
  - destruct (step platform isRemote remotes l e) as [l1|] eqn:E; [|discriminate].
    rewrite (IH _ _ H), (step_length _ _ _ E).
    change (e :: es) with ([e] ++ es). rewrite started_app. lia.
Qed.

(** A task goes, under any schedule, through the programs that [follow]
    gives for the answers addressed to it. *)
Lemma task_follows (es : list Event) : forall (l l' : Loop) (i : nat) (p : Prog unit),
  steps platform isRemote remotes l es = Some l' ->
  nth_error (tasks l) i = Some p ->
  exists q, follow p (answersTo i es) = Some q /\ nth_error (tasks l') i = Some q.
Proof.
  induction es as [|e es IH]; intros l l' i p H Hp; cbn [steps] in H.
  - injection H as <-. exists p. split; [reflexivity | exact Hp].
  - destruct (step platform isRemote remotes l e) as [l1|] eqn:E; [|discriminate].
    assert (Hlt : i < List.length (tasks l))
      by (apply nth_error_Some; rewrite Hp; discriminate).
    destruct e as [path f|f|id r]; cbn [step answersTo] in *.
    + injection E as <-. apply (IH _ _ _ _ H).
      rewrite spawn_tasks, nth_error_app1 by exact Hlt. exact Hp.
    + injection E as <-. apply (IH _ _ _ _ H).
      rewrite spawn_tasks, nth_error_app1 by exact Hlt. exact Hp.
    + destruct (nth_error (tasks l) id) as [p0|] eqn:E0; [|discriminate].
      destruct (resume p0 r (state l)) as [[p1 st1]|] eqn:R; [|discriminate].
      injection E as <-.
      destruct (Nat.eqb id i) eqn:Eid.
      * apply Nat.eqb_eq in Eid. subst id. rewrite Hp in E0. injection E0 as <-.
        destruct (resume_strip _ _ _ _ _ R) as (c & k & -> & Hacc & _ & ->).
        cbn [follow]. rewrite Hacc.
        apply (IH _ _ _ _ H). cbn [tasks].
        apply (nth_error_replace_same _ _ _ _ Hp).
      * apply Nat.eqb_neq in Eid.
        apply (IH _ _ _ _ H). cbn [tasks].
        rewrite nth_error_replace_other by (intros ->; now apply Eid). exact Hp.
Qed.

(** When the call that ends a resolution is settled, under whatever
    schedule, the suggestions of its field become its own result. *)
Lemma completion_result (l lN : Loop) (before between : list Event) (path : string)
    (field : Field) (r : Settled) (done : Prog unit) (st0 : State) :
  steps platform isRemote remotes l
    (before ++ Fetch path field :: between
     ++ [Settle (List.length (tasks l) + started before) r]) = Some lN ->
  nth_error (tasks lN) (List.length (tasks l) + started before) = Some done ->
  finished done = true ->
  exists c st1,
    run (fetchSuggestions platform isRemote remotes path field)
        (answersTo (List.length (tasks l) + started before) between ++ [r]) st0
    = Some (c, st1)
    /\ get field (suggestions (state lN)) = get field (suggestions st1).
Proof.
  set (n := List.length (tasks l) + started before).
  set (p1 := fetchSuggestions platform isRemote remotes path field).
  intros H Hdone Hfin.
  rewrite steps_app in H.
  destruct (steps platform isRemote remotes l before) as [l1|] eqn:E1; [|discriminate].
  pose proof (steps_length _ _ _ E1) as Hlen. fold n in Hlen.
  cbn [steps step] in H. fold p1 in H.
  rewrite steps_app in H.
  destruct (steps platform isRemote remotes (spawn p1 l1) between) as [l3|] eqn:E3;
    [|discriminate].
  assert (Hn : nth_error (tasks (spawn p1 l1)) n = Some (strip p1)).
  { rewrite spawn_tasks, nth_error_app2 by lia.
    rewrite Hlen, Nat.sub_diag. cbn. now rewrite strip_advance. }
  destruct (task_follows _ _ _ _ _ E3 Hn) as (q & Hq & Hq3).
  cbn [steps step] in H. rewrite Hq3 in H.
  destruct (resume q r (state l3)) as [[p' st']|] eqn:R; [|discriminate].
  injection H as <-. cbn [tasks state] in *.
  rewrite (nth_error_replace_same _ _ _ _ Hq3) in Hdone. injection Hdone as ->.
  destruct (resume_strip _ _ _ _ _ R) as (c & k & -> & Hacc & Hadv & _).
  assert (Hrun : exists c', run (Await c k) [r] (state l3) = Some (c', st')).
  { cbn [run]. rewrite Hacc, run_advance, Hadv. cbn [fst snd].
    destruct done; try discriminate; eexists; reflexivity. }
  destruct Hrun as [c' Hrun].
  assert (Hw : writes field (Await c k)).
  { destruct (writes_follow field _ _ _
                (writes_strip field p1 (fetch_writes platform isRemote remotes path field))
                Hq) as [Hf|Hw]; [discriminate | exact Hw]. }
  destruct (run_follow _ p1 _ [r] st0 Hq) as [sb Hsb].
  destruct (run_defined _ _ _ sb _ _ Hrun) as [st1 Hrun1].
  exists c', st1. split; [now rewrite Hsb|].
  exact (writes_run field _ _ _ _ _ _ _ _ Hw Hrun Hrun1).
Qed.

(** The tasks that events of a field started leave the other field as it
    is. *)
Lemma owned_leaves (field : Field) (es : list Event) : forall (l l' : Loop),
  steps platform isRemote remotes l es = Some l' ->
  forall id e0,
  starterOf (List.length (tasks l)) es id = Some e0 ->
  onField (other field) e0 ->
  exists p, nth_error (tasks l') id = Some p /\ leaves field p.
Proof.
  induction es as [|e es IH] using rev_ind; intros l l' H id e0 Hid He0.
  - unfold starterOf in Hid. destruct (Nat.ltb id (List.length (tasks l)));
      [discriminate|]. destruct (id - List.length (tasks l)); discriminate.
  - destruct (steps_snoc _ _ _ _ H) as (l1 & H1 & Hstep).
    pose proof (steps_length _ _ _ H1) as Hlen.
    unfold starterOf in *.
    destruct (Nat.ltb id (List.length (tasks l))) eqn:Elt; [discriminate|].
    apply Nat.ltb_ge in Elt.
    specialize (IH l l1 H1 id).
    assert (Elt' : Nat.ltb id (List.length (tasks l)) = false)
      by (apply Nat.ltb_ge; exact Elt).
    rewrite Elt' in IH.
    rewrite starts_app in Hid.
    destruct e as [path f|f|j r]; cbn [step] in Hstep.
    + injection Hstep as <-. rewrite spawn_tasks.
      destruct (Nat.lt_ge_cases (id - List.length (tasks l)) (List.length (starts es)))
        as [Hk|Hk].
      * rewrite nth_error_app1 in Hid by exact Hk.
        destruct (IH e0 Hid He0) as (p & Hp & Hl). exists p. split; [|exact Hl].
        rewrite nth_error_app1; [exact Hp|].
        apply nth_error_Some. rewrite Hp. discriminate.
      * rewrite nth_error_app2 in Hid by exact Hk. cbn [starts filter isStart] in Hid.
        destruct (id - List.length (tasks l) - List.length (starts es)) eqn:Ek;
          [|destruct n; discriminate].
        injection Hid as <-. cbn [onField] in He0. subst f.
        assert (Eid : id = List.length (tasks l1)) by (unfold started in Hlen; lia).
        rewrite nth_error_app2 by lia. rewrite Eid, Nat.sub_diag. cbn [nth_error].
        eexists. split; [reflexivity|].
        pose proof (Frame.fetch_leaves platform isRemote remotes path (other field))
          as Hl.
        rewrite other_involutive in Hl.
        exact (proj2 (Frame.leaves_advance field _ (state l1) Hl)).
    + injection Hstep as <-. rewrite spawn_tasks.
      destruct (Nat.lt_ge_cases (id - List.length (tasks l)) (List.length (starts es)))
        as [Hk|Hk].
      * rewrite nth_error_app1 in Hid by exact Hk.
        destruct (IH e0 Hid He0) as (p & Hp & Hl). exists p. split; [|exact Hl].
        rewrite nth_error_app1; [exact Hp|].
        apply nth_error_Some. rewrite Hp. discriminate.
      * rewrite nth_error_app2 in Hid by exact Hk. cbn [starts filter isStart] in Hid.
        destruct (id - List.length (tasks l) - List.length (starts es)) eqn:Ek;
          [|destruct n; discriminate].
        injection Hid as <-. cbn [onField] in He0. subst f.
        assert (Eid : id = List.length (tasks l1)) by (unfold started in Hlen; lia).
        rewrite nth_error_app2 by lia. rewrite Eid, Nat.sub_diag. cbn [nth_error].
        eexists. split; [reflexivity|].
        pose proof (Frame.browse_leaves (sourcePath (state l1)) (destPath (state l1))
                      (other field)) as Hl.
        rewrite other_involutive in Hl.
        exact (proj2 (Frame.leaves_advance field _ (state l1) Hl)).
    + cbn [starts filter isStart] in Hid. rewrite app_nil_r in Hid.
      destruct (IH e0 Hid He0) as (p & Hp & Hl).
      destruct (nth_error (tasks l1) j) as [p0|] eqn:E0; [|discriminate].
      destruct (resume p0 r (state l1)) as [[p1 st1]|] eqn:R; [|discriminate].
      injection Hstep as <-. cbn [tasks].
      destruct (Nat.eq_dec id j) as [->|Hne].
      * rewrite Hp in E0. injection E0 as <-.
        exists p1. split; [apply (nth_error_replace_same _ _ _ _ Hp)|].
        exact (proj2 (Frame.leaves_resume field _ _ _ _ _ Hl R)).
      * exists p. split; [|exact Hl].
        rewrite nth_error_replace_other by exact Hne. exact Hp.
Qed.

(** What the other field does leaves a field as it is. *)
Lemma elsewhere_same (field : Field) (l : Loop) (after : list Event) :
  forall (history : list Event) (lN l' : Loop),
  steps platform isRemote remotes l history = Some lN ->
  elsewhere field (List.length (tasks l)) history after ->
  steps platform isRemote remotes lN after = Some l' ->
  sameField field (state lN) (state l').
Proof.
  induction after as [|e after IH]; intros history lN l' Hh Hafter H;
    cbn [steps elsewhere] in *.
  - injection H as <-. apply Frame.sameField_refl.
  - destruct Hafter as [He Hafter].
    destruct (step platform isRemote remotes lN e) as [lM|] eqn:E; [|discriminate].
    assert (HM : steps platform isRemote remotes l (history ++ [e]) = Some lM).
    { rewrite steps_app, Hh. cbn [steps]. now rewrite E. }
    apply (Frame.sameField_trans field _ (state lM)); [|exact (IH _ _ _ HM Hafter H)].
    destruct e as [path f|f|id r]; cbn [step] in E.
    + subst f. injection E as <-. unfold spawn.
      pose proof (Frame.fetch_leaves platform isRemote remotes path (other field)) as Hl.
      rewrite other_involutive in Hl.
      pose proof (proj1 (Frame.leaves_advance field _ (state lN) Hl)) as Hs.
      destruct (advance _ (state lN)) as [p' st']. exact Hs.
    + subst f. injection E as <-. unfold spawn.
      pose proof (Frame.browse_leaves (sourcePath (state lN)) (destPath (state lN))
                    (other field)) as Hl.
      rewrite other_involutive in Hl.
      pose proof (proj1 (Frame.leaves_advance field _ (state lN) Hl)) as Hs.
      destruct (advance _ (state lN)) as [p' st']. exact Hs.
    + destruct He as (e0 & Hid & He0).
      destruct (owned_leaves field _ _ _ Hh _ _ Hid He0) as (p & Hp & Hl).
      rewrite Hp in E.
      destruct (resume p r (state lN)) as [[p1 st1]|] eqn:R; [|discriminate].
      injection E as <-. cbn [state].
      exact (proj1 (Frame.leaves_resume field _ _ _ _ _ Hl R)).
Qed.

(** C1, amended: completions are applied in the order in which they
    happen.  Under every schedule of the event loop, whatever was started or
    settled before a resolution was started and between its start and its end
    (a later resolution of the same field started and completed, in
    particular), at the moment the resolution ends the suggestions of its
    field are its own result, what it computes alone from its path and from
    the answers given to its own calls; and they remain so whatever the other
    field does afterwards.  Nothing is discarded. *)
Theorem last_completion_wins (l lN l' : Loop) (before between after : list Event)
    (path : string) (field : Field) (r : Settled) (done : Prog unit) (st0 : State) :
  steps platform isRemote remotes l
    (before ++ Fetch path field :: between
     ++ [Settle (List.length (tasks l) + started before) r]) = Some lN ->
  nth_error (tasks lN) (List.length (tasks l) + started before) = Some done ->
  finished done = true ->
  elsewhere field (List.length (tasks l))
    (before ++ Fetch path field :: between
     ++ [Settle (List.length (tasks l) + started before) r]) after ->
  steps platform isRemote remotes lN after = Some l' ->
  exists c st1,
    run (fetchSuggestions platform isRemote remotes path field)
        (answersTo (List.length (tasks l) + started before) between ++ [r]) st0
    = Some (c, st1)
    /\ get field (suggestions (state lN)) = get field (suggestions st1)
    /\ get field (suggestions (state l')) = get field (suggestions st1).
Proof.
  intros H Hdone Hfin Hafter H'.
  destruct (completion_result l lN before between path field r done st0 H Hdone Hfin)
    as (c & st1 & Hrun & Hsame).
  exists c, st1. split; [exact Hrun|]. split; [exact Hsame|].
  destruct (elsewhere_same field l after _ lN l' H Hafter H') as (_ & Hs & _).
  now rewrite Hs.
Qed.

End Schedule.

(** The resolution of ["/a/x"] fails once before the resolution of
    ["/a/xy"] is started and ends after it, while the dest field is being
    resolved: the source field shows the entries of ["/a"], the result of the
    resolution started first, also after the dest field's listing arrived. *)
Lemma last_completion_wins_witness :
  exists lN l' c st1,
    steps "linux" isRemotePath [] (emptyLoop "/a/xy" "/d") overlapping = Some lN
    /\ steps "linux" isRemotePath [] lN [Settle 0 (Fulfilled (VEntries tmpEntries))]
       = Some l'
    /\ run (fetchSuggestions "linux" isRemotePath [] "/a/x" source)
         [Rejected NonError; Fulfilled (VEntries listingA)] (initialState "" "")
       = Some (c, st1)
    /\ get source (suggestions (state l')) = get source (suggestions st1)
    /\ get source (suggestions st1)
       = [ {| IsDir := true; Name := "one"; Path := "/a/one" |} ].
Proof.
  assert (Hsched :
    exists lN,
      steps "linux" isRemotePath [] (emptyLoop "/a/xy" "/d") overlapping = Some lN
      /\ nth_error (tasks lN) 1 = Some (Ret tt)
      /\ exists l',
           steps "linux" isRemotePath [] lN [Settle 0 (Fulfilled (VEntries tmpEntries))]
           = Some l').
  { eexists. split; [vm_compute; reflexivity|].
    split; [vm_compute; reflexivity|]. eexists. vm_compute. reflexivity. }
  destruct Hsched as (lN & HN & Hdone & l' & H').
  destruct (last_completion_wins "linux" isRemotePath [] (emptyLoop "/a/xy" "/d") lN l'
              [Fetch "/d" dest]
              [Settle 1 (Rejected NonError); Fetch "/a/xy" source;
               Settle 2 (Fulfilled (VEntries listingAB))]
              [Settle 0 (Fulfilled (VEntries tmpEntries))]
              "/a/x" source (Fulfilled (VEntries listingA)) (Ret tt)
              (initialState "" "") HN Hdone eq_refl)
    as (c & st1 & Hrun & _ & Hsame).
  - cbn. split; [|exact I]. exists (Fetch "/d" dest). split; reflexivity.
  - exact H'.
  - exists lN, l', c, st1. split; [exact HN|]. split; [exact H'|].
    split; [exact Hrun|]. split; [exact Hsame|].
    vm_compute in Hrun. injection Hrun as _ <-. reflexivity.
Defined.

End Order.

(** * Further properties *)

(** ** How a resolution can end *)

Module Outcome.

Ltac crunch H :=
  repeat first
    [ discriminate H
    | progress (cbn -[Js.split Js.join Js.endsWith Js.sliceInit Js.dropLast
                      Js.includes slashSymbol get set listing] in H)
    | match type of H with
      | context [match ?x with _ => _ end] => destruct x
      end ].

Ltac ended H :=
  injection H as <- <-;
  cbn -[get set Js.split Js.join Js.endsWith Js.sliceInit Js.dropLast slashSymbol];
  rewrite ?get_set_same;
  repeat split; auto; try congruence.

(** X1: a resolution never throws to its caller.  However its calls are
    answered, when it ends it has returned, its field is no longer loading,
    it has made at most two calls, and if it left an error in the field it
    left no suggestions there. *)
Theorem fetch_always_returns (platform : string) (isRemote : string -> bool)
    (remotes : list string) (path : string) (field : Field)
    (answers : list Settled) (st st' : State) (c : Completion unit) :
  run (fetchSuggestions platform isRemote remotes path field) answers st
  = Some (c, st') ->
  c = Returned tt
  /\ get field (isLoading st') = false
  /\ (get field (error st') <> None -> get field (suggestions st') = [])
  /\ List.length (called (fetchSuggestions platform isRemote remotes path field) answers)
     <= 2.
Proof.
  intros H. unfold fetchSuggestions, fetchRemote in *.
  destruct (Js.falsy path).
  { crunch H. ended H. }
  destruct (negb (isRemote path)).
  { crunch H; ended H. }
  destruct (Js.split ":/" path) as [|remote pathParts].
  { crunch H; ended H. }
  destruct (Js.falsy remote).
  { crunch H; ended H. }
  crunch H; ended H.
Qed.

Lemma fetch_always_returns_witness :
  exists st',
    run (fetchSuggestions "linux" isRemotePath ["gdrive"] "gdrive:/Photos" dest)
        [Rejected (Error "directory not found")] busyDest
    = Some (Returned tt, st')
    /\ get dest (isLoading st') = false
    /\ get dest (error st') = Some "directory not found"
    /\ get dest (suggestions st') = [].
Proof.
  set (st' :=
         {| sourcePath := "/tmp/nope/x";
            destPath := "gdrive:/Photos";
            suggestions := {| at_source := []; at_dest := [] |};
            isLoading := {| at_source := false; at_dest := false |};
            error := {| at_source := None; at_dest := Some "directory not found" |};
            windowsLocked := false |}).
  assert (H : run (fetchSuggestions "linux" isRemotePath ["gdrive"] "gdrive:/Photos" dest)
                [Rejected (Error "directory not found")] busyDest
              = Some (Returned tt, st')) by reflexivity.
  exists st'. split; [exact H|].
  destruct (fetch_always_returns _ _ _ _ _ _ _ _ _ H) as (_ & Hload & Herr & _).
  split; [exact Hload|]. split; [reflexivity|].
  apply Herr. discriminate.
Defined.

Section Remote.

Variable platform : string.
Variable isRemote : string -> bool.
Variable remotes : list string.

(** X2: the listing of a remote address succeeds: the suggestions of the
    field are the items in the order of the listing, each named by the item's
    path and addressed by the remote's name, [":/"] and the item's path, and
    the field has no error. *)
Theorem remote_listing (name subPath : string) (field : Field) (items : list Item.t)
    (st : State) :
  name <> "" ->
  Js.includes ":/" name = false ->
  isRemote (name ++ ":/" ++ subPath) = true ->
  exists st',
    run (fetchSuggestions platform isRemote remotes (name ++ ":/" ++ subPath) field)
        [Fulfilled (VItems items)] st
    = Some (Returned tt, st')
    /\ get field (suggestions st')
       = map (fun item =>
                {| IsDir := Item.IsDir item;
                   Name := Item.Path item;
                   Path := (name ++ ":/" ++ Item.Path item)%string |}) items
    /\ get field (error st') = None
    /\ get field (isLoading st') = false.
Proof.
  intros Hname Hfirst Hrem.
  unfold fetchSuggestions, fetchRemote.
  rewrite (falsy_false _ (Resolve.address_not_empty name subPath)), Hrem,
    (Resolve.split_address name subPath Hfirst), (falsy_false _ Hname).
  run_fetch. eexists. split; [reflexivity|]. run_fetch.
  rewrite !get_set_same. repeat split.
Qed.

(** X3: the listing of a remote address fails: the call returns all the
    same, the field has no suggestions, and its error is the message of the
    error thrown, or ["Failed to fetch suggestions"] when what was thrown is
    not an [Error]. *)
Theorem remote_listing_fails (name subPath : string) (field : Field) (err : Thrown)
    (st : State) :
  name <> "" ->
  Js.includes ":/" name = false ->
  isRemote (name ++ ":/" ++ subPath) = true ->
  exists st',
    run (fetchSuggestions platform isRemote remotes (name ++ ":/" ++ subPath) field)
        [Rejected err] st
    = Some (Returned tt, st')
    /\ get field (suggestions st') = []
    /\ get field (error st')
       = Some (match err with
               | Error message => message
               | NonError => "Failed to fetch suggestions"
               end)
    /\ get field (isLoading st') = false.
Proof.
  intros Hname Hfirst Hrem.
  unfold fetchSuggestions, fetchRemote.
  rewrite (falsy_false _ (Resolve.address_not_empty name subPath)), Hrem,
    (Resolve.split_address name subPath Hfirst), (falsy_false _ Hname).
  run_fetch. eexists. split; [reflexivity|]. run_fetch.
  rewrite !get_set_same. repeat split.
Qed.

End Remote.

Lemma contains_separator (name subPath : string) :
  isRemotePath (name ++ ":/" ++ subPath) = true.
Proof.
  unfold isRemotePath. apply JsFacts.includes_append_l.
  cbn [append Js.includes Js.startsWith String.prefix].
  destruct (ascii_dec ":" ":") as [_|n]; [|now destruct n].
  destruct (ascii_dec "/" "/") as [_|n]; [|now destruct n].
  destruct subPath; reflexivity.
Qed.

Lemma remote_listing_witness :
  exists st',
    run (fetchSuggestions "linux" isRemotePath [] "gdrive:/Photos/" source)
        [Fulfilled (VItems [ {| Item.IsDir := true; Item.Path := "Photos/2023" |} ])]
        (initialState "gdrive:/Photos/" "")
    = Some (Returned tt, st')
    /\ get source (suggestions st')
       = [ {| IsDir := true; Name := "Photos/2023"; Path := "gdrive:/Photos/2023" |} ]
    /\ get source (error st') = None
    /\ get source (isLoading st') = false.
Proof.
  apply (remote_listing "linux" isRemotePath [] "gdrive" "Photos/" source
           [ {| Item.IsDir := true; Item.Path := "Photos/2023" |} ]
           (initialState "gdrive:/Photos/" ""));
    [discriminate | reflexivity | apply contains_separator].
Defined.

Lemma remote_listing_fails_witness :
  exists st',
    run (fetchSuggestions "linux" isRemotePath [] "nowhere:/x" dest)
        [Rejected NonError] (initialState "" "nowhere:/x")
    = Some (Returned tt, st')
    /\ get dest (suggestions st') = []
    /\ get dest (error st') = Some "Failed to fetch suggestions"
    /\ get dest (isLoading st') = false.
Proof.
  apply (remote_listing_fails "linux" isRemotePath [] "nowhere" "x" dest NonError
           (initialState "" "nowhere:/x"));
    [discriminate | reflexivity | apply contains_separator].
Defined.

End Outcome.

(** ** Suggestions lead back into the resolution *)

Module RoundTrip.



Section Local.

Variable platform : string.
Variable isRemote : string -> bool.
Variable remotes : list string.






(** X5: the path of a remote suggestion leads back to the remote.  The
    entry of a remote in the list of remotes resolves to the listing of the
    remote's root, and the entry of a listed item resolves to the listing of
    the item's path, less one trailing ["/"]. *)
Theorem remote_suggestion_round_trip (remote : string) (field : Field) :
  remote <> "" ->
  Js.includes ":/" remote = false ->
  (forall subPath, isRemote (remote ++ ":/" ++ subPath) = true) ->
  nextCall (fetchSuggestions platform isRemote remotes (Path (remoteItem remote)) field)
  = Some (listPath remote "" true true)
  /\ (forall item,
        Js.includes ":/" (Item.Path item) = false ->
        nextCall (fetchSuggestions platform isRemote remotes
                    (Path (remoteSuggestion remote item)) field)
        = Some (listPath remote (stripSlash (Item.Path item)) true true)).
Proof.
  intros Hne Hfirst Hrem. split.
  - change (Path (remoteItem remote)) with (remote ++ ":/" ++ "")%string.
    rewrite (Resolve.remote_single_separator platform isRemote remotes remote ""
               field Hne Hfirst eq_refl (Hrem "")).
    reflexivity.
  - intros item Hitem.
    change (Path (remoteSuggestion remote item))
      with (remote ++ ":/" ++ Item.Path item)%string.
    apply (Resolve.remote_single_separator platform isRemote remotes remote
             (Item.Path item) field Hne Hfirst Hitem (Hrem _)).
Qed.

End Local.


Lemma remote_suggestion_round_trip_witness :
  nextCall (fetchSuggestions "linux" isRemotePath ["gdrive"]
              (Path (remoteItem "gdrive")) source)
  = Some (listPath "gdrive" "" true true)
  /\ nextCall (fetchSuggestions "linux" isRemotePath ["gdrive"]
                 (Path (remoteSuggestion "gdrive"
                          {| Item.IsDir := true; Item.Path := "Photos/2023" |}))
                 source)
     = Some (listPath "gdrive" "Photos/2023" true true).
Proof.
  destruct (remote_suggestion_round_trip "linux" isRemotePath ["gdrive"] "gdrive" source)
    as [Hroot Hitem];
    [discriminate | reflexivity | intros; apply Outcome.contains_separator |].
  split; [exact Hroot|].
  apply (Hitem {| Item.IsDir := true; Item.Path := "Photos/2023" |}). reflexivity.
Defined.

End RoundTrip.

(** ** The retry of a local resolution *)

Module Retry.

Lemma includes_char_empty (c : ascii) : Js.includes (String c "") "" = false.
Proof. reflexivity. Qed.

(** Every path has a cut at its last separator. *)
Lemma cut_exists (c : ascii) (path : string) :
  exists parent, cutAtLast (String c "") path parent.
Proof.
  induction path as [|a path IH].
  - exists "". right. split; reflexivity.
  - destruct IH as [parent [(last & E & Hlast) | [Hnone ->]]].
    + exists (String a parent). left. exists last. split; [|exact Hlast].
      rewrite E. reflexivity.
    + destruct (ascii_dec c a) as [<-|Hca].
      * exists "". left. exists path. split; [reflexivity | exact Hnone].
      * exists "". right. split; [|reflexivity].
        cbn [Js.includes]. rewrite JsFacts.startsWith_char.
        destruct (ascii_dec c a); [contradiction|]. exact Hnone.
Qed.

Lemma prefix_append (p s : string) : String.prefix p (p ++ s) = true.
Proof.
  induction p as [|a p IH]; cbn [append String.prefix].
  - destruct s; reflexivity.
  - destruct (ascii_dec a a) as [_|n]; [exact IH | now destruct n].
Qed.

Lemma length_append (s t : string) :
  String.length (s ++ t) = String.length s + String.length t.
Proof.
  induction s as [|a s IH]; cbn; [reflexivity | now rewrite IH].
Qed.

(** A cut of a non-empty path is a strictly shorter prefix of it. *)
Lemma cut_shorter (separator path parent : string) :
  path <> "" ->
  cutAtLast separator path parent ->
  String.prefix parent path = true
  /\ String.length parent < String.length path.
Proof.
  intros Hne [(last & -> & Hlast) | [_ ->]].
  - split; [apply prefix_append|].
    rewrite !length_append.
    destruct separator as [|c separator].
    + destruct last; cbn in Hlast; discriminate.
    + cbn. lia.
  - split.
    + destruct path; reflexivity.
    + destruct path; [contradiction | cbn; lia].
Qed.

Section Retry.

Variable platform : string.
Variable isRemote : string -> bool.
Variable remotes : list string.

(** X6: the retry of a local resolution never asks for the same listing
    again.  When the listing of a non-empty local path fails, the one further
    call is the listing of a strictly shorter prefix of the path, and no call
    follows it, however the retry is answered. *)
Theorem retry_is_shorter (path : string) (field : Field) (err : Thrown)
    (rest : list Settled) :
  path <> "" ->
  isRemote path = false ->
  exists parent,
    called (fetchSuggestions platform isRemote remotes path field) (Rejected err :: rest)
    = [readDir path; readDir parent]
    /\ String.prefix parent path = true
    /\ String.length parent < String.length path.
Proof.
  intros Hne Hloc.
  assert (Hcut : exists parent, cutAtLast (slashSymbol platform) path parent).
  { destruct (JsFacts.slashSymbol_char platform) as [E|E]; rewrite E;
      apply cut_exists. }
  destruct Hcut as [parent Hcut]. exists parent.
  split; [|exact (cut_shorter _ _ _ Hne Hcut)].
  apply (Resolve.cut_is_parent platform) in Hcut.
  unfold fetchSuggestions. rewrite (falsy_false _ Hne), Hloc. run_fetch.
  rewrite Hcut. destruct rest as [|[[entries|items|selected|]|err2] rest]; reflexivity.
Qed.

End Retry.

Lemma retry_is_shorter_witness :
  exists parent,
    called (fetchSuggestions "windows" isRemotePath [] "C:\Users\me\not" source)
      [Rejected (Error "not found"); Rejected (Error "denied")]
    = [readDir "C:\Users\me\not"; readDir parent]
    /\ String.prefix parent "C:\Users\me\not" = true
    /\ String.length parent < String.length "C:\Users\me\not".
Proof.
  apply (retry_is_shorter "windows" isRemotePath [] "C:\Users\me\not" source
           (Error "not found") [Rejected (Error "denied")]);
    [discriminate | reflexivity].
Defined.

Example windows_parent :
  called (fetchSuggestions "windows" isRemotePath [] "C:\Users\me\not" source)
    [Rejected (Error "not found"); Rejected (Error "denied")]
  = [readDir "C:\Users\me\not"; readDir "C:\Users\me"].
Proof. reflexivity. Qed.

End Retry.

(** ** More on the folder picker *)

Module BrowseMore.

Ltac crunch H :=
  repeat first
    [ discriminate H
    | progress (cbn -[get set] in H)
    | match type of H with
      | context [match ?x with _ => _ end] => is_var x; destruct x
      end
    | match type of H with
      | context [match ?x with _ => _ end] => destruct x
      end ].

(** X7: a browse never throws to its caller and never touches the
    suggestions or the loading flags.  The text of its field changes only
    when the lock was taken, a non-empty folder was chosen and the lock was
    given back; the text is then the folder, and the windows are unlocked. *)
Theorem browse_always_returns (sourcePath destPath : string) (field : Field)
    (answers : list Settled) (st st' : State) (c : Completion unit) :
  run (handleBrowse sourcePath destPath field) answers st = Some (c, st') ->
  c = Returned tt
  /\ suggestions st' = suggestions st
  /\ isLoading st' = isLoading st
  /\ (rawText field st' = rawText field st
      \/ exists selected rest,
           selected <> ""
           /\ answers
              = Fulfilled VUndefined :: Fulfilled (VSelected (Some selected))
                :: Fulfilled VUndefined :: rest
           /\ rawText field st' = selected
           /\ windowsLocked st' = false
           /\ error st' = error st).
Proof.
  intros H. unfold handleBrowse, truthy, Js.falsy in H.
  destruct field; crunch H; injection H as <- <-;
    (split; [reflexivity|]); (split; [reflexivity|]); (split; [reflexivity|]);
    first [ left; reflexivity
          | right; eexists; eexists; (split; [|split; [reflexivity|]]);
            [> discriminate | repeat split ] ].
Qed.

Lemma browse_always_returns_witness :
  exists st',
    run (handleBrowse "" "/data" dest)
        [Fulfilled VUndefined; Fulfilled (VSelected (Some "/data/backup"));
         Fulfilled VUndefined] (initialState "" "/data")
    = Some (Returned tt, st')
    /\ rawText dest st' = "/data/backup"
    /\ suggestions st' = suggestions (initialState "" "/data").
Proof.
  set (st' := {| sourcePath := ""; destPath := "/data/backup";
                 suggestions := {| at_source := []; at_dest := [] |};
                 isLoading := {| at_source := false; at_dest := false |};
                 error := {| at_source := None; at_dest := None |};
                 windowsLocked := false |}).
  assert (H : run (handleBrowse "" "/data" dest)
                [Fulfilled VUndefined; Fulfilled (VSelected (Some "/data/backup"));
                 Fulfilled VUndefined] (initialState "" "/data")
              = Some (Returned tt, st')) by reflexivity.
  exists st'. split; [exact H|]. split; [reflexivity|].
  exact (proj1 (proj2 (browse_always_returns _ _ _ _ _ _ _ H))).
Defined.

(** X8: a call that fails around the dialog.  When [lockWindows] fails the
    dialog is never opened and the lock is as it was; when [unlockWindows]
    fails after a folder was chosen, the choice is dropped and the windows
    stay locked.  Both times the text is unchanged and the error of the field
    is the one of a dialog that could not be opened. *)
Theorem browse_call_fails (sourcePath destPath : string) (field : Field)
    (err : Thrown) (selected : option string) (rest : list Settled) (st : State) :
  (exists st',
     run (handleBrowse sourcePath destPath field) (Rejected err :: rest) st
     = Some (Returned tt, st')
     /\ called (handleBrowse sourcePath destPath field) (Rejected err :: rest)
        = [lockWindows]
     /\ windowsLocked st' = windowsLocked st
     /\ rawText field st' = rawText field st
     /\ get field (error st') = Some "Failed to open folder picker")
  /\ (exists st',
        run (handleBrowse sourcePath destPath field)
            (Fulfilled VUndefined :: Fulfilled (VSelected selected)
             :: Rejected err :: rest) st
        = Some (Returned tt, st')
        /\ called (handleBrowse sourcePath destPath field)
             (Fulfilled VUndefined :: Fulfilled (VSelected selected)
              :: Rejected err :: rest)
           = [lockWindows;
              open true false
                (match field with source => sourcePath | dest => destPath end);
              unlockWindows]
        /\ windowsLocked st' = true
        /\ rawText field st' = rawText field st
        /\ get field (error st') = Some "Failed to open folder picker").
Proof.
  split; destruct field; cbn; eexists; repeat split.
Qed.

End BrowseMore.

(** ** Swapping the two paths *)

Module Swap.

Lemma eqb_swap (a b : string) : String.eqb b a = String.eqb a b.
Proof. apply String.eqb_sym. Qed.

(** X9: the swap exchanges the two texts and nothing else; a second swap
    restores the state; the swap button is disabled after it exactly when it
    was before; and after the render that follows, the effect hooks resolve
    each field with the other's former text, or nothing when the two texts
    were the same. *)
Theorem swap_exchanges (switchable : bool) (st : State) :
  exists st1,
    run (handleSwap (sourcePath st) (destPath st)) [] st = Some (Returned tt, st1)
    /\ sourcePath st1 = destPath st
    /\ destPath st1 = sourcePath st
    /\ suggestions st1 = suggestions st
    /\ isLoading st1 = isLoading st
    /\ error st1 = error st
    /\ windowsLocked st1 = windowsLocked st
    /\ run (handleSwap (sourcePath st1) (destPath st1)) [] st1 = Some (Returned tt, st)
    /\ View.swapButtonDisabled switchable st1 = View.swapButtonDisabled switchable st
    /\ renderEffects st st1
       = if String.eqb (sourcePath st) (destPath st) then []
         else [Fetch (destPath st) source; Fetch (sourcePath st) dest].
Proof.
  destruct st as [sp dp sugg load err locked].
  eexists. split; [reflexivity|]. cbn.
  repeat (split; [reflexivity|]).
  split.
  - unfold View.swapButtonDisabled. cbn. destruct switchable; [|reflexivity].
    now rewrite andb_comm.
  - unfold renderEffects. cbn. rewrite (eqb_swap sp dp).
    destruct (String.eqb sp dp); reflexivity.
Qed.

End Swap.

(** ** What is rendered *)

Module Rendering.

Lemma mapi_from_map {A B C : Type} (f : A -> B) (g : B -> nat -> C) :
  forall (l : list A) (index : nat),
  mapi_from g index (map f l) = mapi_from (fun a i => g (f a) i) index l.
Proof.
  induction l as [|a l IH]; intros index; cbn; [reflexivity|].
  now rewrite IH.
Qed.

Section Rendering.

Variable platform : string.
Variable isRemote : string -> bool.
Variable remotes : list string.
Variable sourceOptions destOptions : Options.

(** X10: focusing a field.  The handler returns at once without a call.
    When the text of the field is empty, the field then shows one folder item
    per known remote, in order and keyed by position, titled and valued by
    the remote's name and [":/"] (no item at all when the field's option
    [remoteSuggestions] is off), and is neither invalid nor loading; when the
    text is not empty, nothing has changed. *)
Theorem focus_view (field : Field) (answers : list Settled) (st : State) :
  exists st',
    run (onFocus platform isRemote remotes (rawText field st) field) answers st
    = Some (Returned tt, st')
    /\ called (onFocus platform isRemote remotes (rawText field st) field) answers = []
    /\ if Js.falsy (rawText field st)
       then View.items (View.renderField sourceOptions destOptions st' field)
            = (if remoteSuggestions (optionsOf sourceOptions destOptions field)
               then mapi (fun remote index =>
                            {| View.startContent := "📁";
                               View.key := index;
                               View.textValue := (remote ++ ":/")%string;
                               View.title := (remote ++ ":/")%string |}) remotes
               else [])
            /\ View.isInvalid (View.renderField sourceOptions destOptions st' field)
               = false
            /\ View.showsLoading (View.renderField sourceOptions destOptions st' field)
               = false
       else st' = st.
Proof.
  unfold onFocus. destruct (Js.falsy (rawText field st)).
  - eexists. split; [reflexivity|]. split; [reflexivity|].
    destruct field; cbn -[mapi];
      [destruct (remoteSuggestions sourceOptions)
      | destruct (remoteSuggestions destOptions)];
      repeat split; unfold mapi; now rewrite mapi_from_map.
  - exists st. repeat split.
Qed.

(** X11: what the field shows after a remote listing failed with an
    [Error]: no item, the error's message as the error text, and the field
    marked invalid unless that message is empty. *)
Theorem failed_listing_view (name subPath message : string) (field : Field)
    (st : State) :
  name <> "" ->
  Js.includes ":/" name = false ->
  isRemote (name ++ ":/" ++ subPath) = true ->
  exists st',
    run (fetchSuggestions platform isRemote remotes (name ++ ":/" ++ subPath) field)
        [Rejected (Error message)] st
    = Some (Returned tt, st')
    /\ View.items (View.renderField sourceOptions destOptions st' field) = []
    /\ View.errorMessage (View.renderField sourceOptions destOptions st' field)
       = Some message
    /\ View.isInvalid (View.renderField sourceOptions destOptions st' field)
       = negb (String.eqb message "").
Proof.
  intros Hname Hfirst Hrem.
  unfold fetchSuggestions, fetchRemote.
  rewrite (falsy_false _ (Resolve.address_not_empty name subPath)), Hrem,
    (Resolve.split_address name subPath Hfirst), (falsy_false _ Hname).
  run_fetch. eexists. split; [reflexivity|].
  destruct field; cbn;
    [destruct (remoteSuggestions sourceOptions)
    | destruct (remoteSuggestions destOptions)];
    repeat split; destruct message; reflexivity.
Qed.

(** X12: the first render.  With both paths empty, the two effect hooks
    run to their end without a call: no task is left waiting, both fields
    suggest the known remotes, and neither is loading or in error. *)
Theorem mount_lists_remotes :
  exists l',
    steps platform isRemote remotes (emptyLoop "" "")
      (mountEffects (state (emptyLoop "" ""))) = Some l'
    /\ tasks l' = [Ret tt; Ret tt]
    /\ suggestions (state l')
       = {| at_source := map remoteItem remotes; at_dest := map remoteItem remotes |}
    /\ isLoading (state l') = {| at_source := false; at_dest := false |}
    /\ error (state l') = {| at_source := None; at_dest := None |}.
Proof.
  eexists. split; [reflexivity|]. repeat split.
Qed.

End Rendering.

Lemma failed_listing_view_witness :
  exists st',
    run (fetchSuggestions "linux" isRemotePath [] "gdrive:/x" source)
        [Rejected (Error "")] (initialState "gdrive:/x" "")
    = Some (Returned tt, st')
    /\ View.items (View.renderField defaultSourceOptions defaultDestOptions st' source)
       = []
    /\ View.errorMessage
         (View.renderField defaultSourceOptions defaultDestOptions st' source)
       = Some ""
    /\ View.isInvalid
         (View.renderField defaultSourceOptions defaultDestOptions st' source)
       = false.
Proof.
  apply (failed_listing_view "linux" isRemotePath [] defaultSourceOptions
           defaultDestOptions "gdrive" "x" "" source (initialState "gdrive:/x" ""));
    [discriminate | reflexivity | apply Outcome.contains_separator].
Defined.

End Rendering.

(** ** More on the unmount protocol *)

Module UnmountMore.

Lemma nonzero_iff (output : Output) :
  negb (code output =? 0)%Z = true <-> code output <> 0%Z.
Proof.
  rewrite negb_true_iff. apply Z.eqb_neq.
Qed.

Lemma zero_iff (output : Output) :
  negb (code output =? 0)%Z = false <-> code output = 0%Z.
Proof.
  rewrite negb_false_iff. apply Z.eqb_eq.
Qed.

(** X13: the commands of one call.  The first command has the force flag
    the call was given; every later command is forced; all are for the mount
    point of the call.  The commands after the first are as many as the
    prompts the user confirmed, and the user was asked at most once more than
    that. *)
Theorem commands_shape (outputs : list Output) :
  forall (answers : list bool) (mountPoint : string) (force : bool) (u : Unmounted),
  unmount outputs answers mountPoint force = Some u ->
  exists retries,
    executed u
    = [(if force then "-f" else ""); mountPoint]
      :: repeat ["-f"; mountPoint] retries
    /\ retries <= confirmations answers
    /\ retries <= asked u <= S retries.
Proof.
  induction outputs as [|output outputs IH]; intros answers mountPoint force u H.
  - discriminate.
  - cbn [unmount] in H.
    destruct (negb (code output =? 0)%Z).
    + destruct (Js.includes "busy" (Js.toLowerCase (stderr output))).
      * destruct answers as [|[|] answers]; [discriminate| |].
        -- destruct (unmount outputs answers mountPoint true) as [u'|] eqn:E;
             [|discriminate].
           injection H as <-. destruct (IH _ _ _ _ E) as (k & Hk & Hc & Ha).
           exists (S k). cbn [ran prompted executed asked repeat].
           rewrite Hk. unfold confirmations in *. cbn. repeat split; lia.
        -- injection H as <-. exists 0. cbn. unfold confirmations. cbn.
           repeat split; lia.
      * destruct (Js.includes "not currently mounted" (Js.toLowerCase (stderr output)));
          injection H as <-; exists 0; cbn; repeat split; lia.
    + injection H as <-. exists 0. cbn. repeat split; lia.
Qed.

Lemma commands_shape_witness :
  exists retries,
    [[""; "/mnt/x"]; ["-f"; "/mnt/x"]]
    = [""; "/mnt/x"] :: repeat ["-f"; "/mnt/x"] retries
    /\ retries <= confirmations [true]
    /\ retries <= 1 <= S retries.
Proof.
  exact (commands_shape [busyOutput; doneOutput] [true] "/mnt/x" false
           {| completion := Returned tt;
              executed := [[""; "/mnt/x"]; ["-f"; "/mnt/x"]];
              asked := 1 |} eq_refl).
Defined.

Lemma executed_length (outputs : list Output) (answers : list bool)
    (mountPoint : string) (force : bool) (u : Unmounted) :
  unmount outputs answers mountPoint force = Some u ->
  exists n, List.length (executed u) = S n.
Proof.
  intros H. destruct outputs as [|output outputs]; [discriminate|].
  cbn [unmount] in H.
  match type of H with
  | option_map _ ?x = _ => destruct x as [u'|]; [|discriminate]
  end.
  injection H as <-. exists (List.length (executed u')). reflexivity.
Qed.

(** X14: the end of a call is decided by its last command.  Every command
    before the last failed as busy.  The call returns normally only when the
    last command exited with zero, or failed, not as busy, with "not currently
    mounted"; otherwise it throws an [Error] whose message is the stderr of
    the last command. *)
Theorem last_command_decides (outputs : list Output) :
  forall (answers : list bool) (mountPoint : string) (force : bool) (u : Unmounted),
  unmount outputs answers mountPoint force = Some u ->
  exists last,
    nth_error outputs (List.length (executed u) - 1) = Some last
    /\ Forall failsBusy (firstn (List.length (executed u) - 1) outputs)
    /\ match completion u with
       | Returned _ =>
           code last = 0%Z
           \/ (isBusy last = false /\ isNotMounted last = true)
       | Threw err =>
           err = Error (stderr last)
           /\ code last <> 0%Z
           /\ (isBusy last = true \/ isNotMounted last = false)
       end.
Proof.
  induction outputs as [|output outputs IH]; intros answers mountPoint force u H.
  - discriminate.
  - cbn [unmount] in H.
    destruct (negb (code output =? 0)%Z) eqn:Hcode.
    + apply nonzero_iff in Hcode.
      destruct (Js.includes "busy" (Js.toLowerCase (stderr output))) eqn:Hbusy.
      * destruct answers as [|[|] answers]; [discriminate| |].
        -- destruct (unmount outputs answers mountPoint true) as [u'|] eqn:E;
             [|discriminate].
           injection H as <-. destruct (IH _ _ _ _ E) as (last & Hn & Hall & Hend).
           destruct (executed_length _ _ _ _ _ E) as [n Hlen].
           exists last. cbn [ran prompted executed completion List.length].
           rewrite Hlen in *. cbn [Nat.sub] in *. rewrite Nat.sub_0_r in *.
           split; [exact Hn|]. split; [|exact Hend].
           cbn [firstn]. constructor; [split; assumption | exact Hall].
        -- injection H as <-. exists output. cbn. repeat split; auto.
      * destruct (Js.includes "not currently mounted" (Js.toLowerCase (stderr output)))
          eqn:Hnot; injection H as <-; exists output; cbn; repeat split; auto.
    + apply zero_iff in Hcode. injection H as <-. exists output. cbn.
      repeat split; auto.
Qed.

Lemma last_command_decides_witness :
  exists last,
    nth_error [busyOutput; notMounted] 1 = Some last
    /\ Forall failsBusy [busyOutput]
    /\ (code last = 0%Z \/ (isBusy last = false /\ isNotMounted last = true)).
Proof.
  exact (last_command_decides [busyOutput; notMounted] [true] "/mnt/x" false
           {| completion := Returned tt;
              executed := [[""; "/mnt/x"]; ["-f"; "/mnt/x"]];
              asked := 1 |} eq_refl).
Defined.

(** X15: the call ends at the first command that does not fail as busy.
    When the first commands fail as busy and the user confirms each prompt,
    the call ends with the command after them: it has executed one command
    more than the busy ones and asked once for each busy one. *)
Theorem ends_at_first_not_busy (busy : list Output) :
  forall (output : Output) (later : list Output) (more : list bool)
         (mountPoint : string) (force : bool),
  Forall failsBusy busy ->
  ~ failsBusy output ->
  exists u,
    unmount (busy ++ output :: later)
      (repeat true (List.length busy) ++ more) mountPoint force = Some u
    /\ List.length (executed u) = S (List.length busy)
    /\ asked u = List.length busy
    /\ completion u
       = if (code output =? 0)%Z then Returned tt
         else if isNotMounted output then Returned tt
         else Threw (Error (stderr output)).
Proof.
  induction busy as [|b busy IH]; intros output later more mountPoint force Hall Hout.
  - cbn [app repeat List.length unmount].
    destruct (code output =? 0)%Z eqn:Hcode; cbn [negb].
    + eexists. split; [reflexivity|]. cbn. repeat split.
    + assert (Hb : Js.includes "busy" (Js.toLowerCase (stderr output)) = false).
      { destruct (Js.includes "busy" (Js.toLowerCase (stderr output))) eqn:E;
          [|reflexivity].
        exfalso. apply Hout. split; [now apply Z.eqb_neq | exact E]. }
      rewrite Hb. unfold isNotMounted.
      destruct (Js.includes "not currently mounted" (Js.toLowerCase (stderr output)));
        eexists; (split; [reflexivity|]); cbn; repeat split.
  - inversion Hall as [|? ? [Hcode Hbusy] Hall']; subst.
    destruct (IH output later more mountPoint true Hall' Hout)
      as (u & Hu & Hlen & Hasked & Hend).
    cbn [app repeat List.length unmount].
    rewrite (proj2 (nonzero_iff b) Hcode). unfold isBusy in Hbusy. rewrite Hbusy, Hu.
    eexists. split; [reflexivity|]. cbn. rewrite Hlen, Hasked. repeat split.
    exact Hend.
Qed.

Lemma ends_at_first_not_busy_witness :
  Forall failsBusy [busyOutput; busyOutput]
  /\ ~ failsBusy notMounted
  /\ exists u,
       unmount ([busyOutput; busyOutput] ++ notMounted :: [])
         (repeat true 2 ++ []) "/mnt/x" false = Some u
       /\ List.length (executed u) = 3
       /\ asked u = 2
       /\ completion u = Returned tt.
Proof.
  assert (Hb : failsBusy busyOutput) by (split; [discriminate | reflexivity]).
  assert (Hn : ~ failsBusy notMounted) by (intros [_ H]; discriminate H).
  assert (Hall : Forall failsBusy [busyOutput; busyOutput])
    by exact (Forall_cons _ Hb (Forall_cons _ Hb (Forall_nil _))).
  split; [exact Hall|]. split; [exact Hn|].
  apply (ends_at_first_not_busy [busyOutput; busyOutput] notMounted [] []
           "/mnt/x" false); [exact Hall | exact Hn].
Defined.

End UnmountMore.

(** ** The mount prerequisites *)

Module MountFacts.

Lemma eqb_false_neq (s t : string) : String.eqb s t = false -> s <> t.
Proof. apply String.eqb_neq. Qed.

Ltac sys_run Henv :=
  repeat (progress
            (rewrite ?Henv;
             cbn [Sys.awaitBool Sys.bind Sys.interp Sys.didCall Sys.outcome
                  Sys.calls Sys.variable])).

(** X16: whether a plugin is needed.  In an environment where [exists]
    answers as the file system [fs] does, the call returns, and it returns
    true exactly on macOS when neither fuse-t nor macFUSE is installed and on
    Windows when WinFsp is in neither program folder.  Only [exists] is
    called; on any other platform nothing is. *)
Theorem needs_plugin (currentPlatform : string) (fs : string -> bool)
    (env : Sys.Call -> Sys.Settled) (n : nat) :
  (forall path, env (Sys.exists_ path) = Sys.Fulfilled (Sys.VBool (fs path))) ->
  exists needs,
    Sys.outcome (Sys.interp env (Mount.needsMountPlugin currentPlatform) n)
    = Returned needs
    /\ (needs = true <->
        (currentPlatform = "macos"
         /\ fs "/Library/Application Support/fuse-t" = false
         /\ fs "/Library/Filesystems/macfuse.fs" = false)
        \/ (currentPlatform = "windows"
            /\ fs "C:\Program Files\WinFsp" = false
            /\ fs "C:\Program Files (x86)\WinFsp" = false))
    /\ Forall (fun c => exists path, c = Sys.exists_ path)
         (Sys.calls (Sys.interp env (Mount.needsMountPlugin currentPlatform) n))
    /\ (currentPlatform <> "macos" -> currentPlatform <> "windows" ->
        Sys.calls (Sys.interp env (Mount.needsMountPlugin currentPlatform) n) = []).
Proof.
  intros Henv. unfold Mount.needsMountPlugin.
  destruct (String.eqb currentPlatform "macos") eqn:Emac.
  - apply String.eqb_eq in Emac. subst currentPlatform.
    sys_run Henv.
    eexists. split; [reflexivity|]. split; [|split].
    + rewrite andb_true_iff, !negb_true_iff. split.
      * intros [H1 H2]. left. auto.
      * intros [(_ & H1 & H2) | (H & _)]; [auto | discriminate H].
    + repeat constructor; eexists; reflexivity.
    + intros H. now destruct H.
  - apply eqb_false_neq in Emac.
    destruct (String.eqb currentPlatform "windows") eqn:Ewin.
    + apply String.eqb_eq in Ewin. subst currentPlatform.
      sys_run Henv.
      destruct (fs "C:\Program Files\WinFsp") eqn:F1; sys_run Henv.
      * eexists. split; [reflexivity|]. split; [|split].
        -- cbn. split; [discriminate|].
           intros [(H & _) | (_ & H & _)]; discriminate H.
        -- repeat constructor; eexists; reflexivity.
        -- intros _ H. now destruct H.
      * eexists. split; [reflexivity|]. split; [|split].
        -- rewrite negb_true_iff. split.
           ++ intros H. right. auto.
           ++ intros [(H & _) | (_ & _ & H)]; [discriminate H | exact H].
        -- repeat constructor; eexists; reflexivity.
        -- intros _ H. now destruct H.
    + apply eqb_false_neq in Ewin. exists false. cbn. split; [reflexivity|].
      split; [|split; [constructor | reflexivity]].
      split; [discriminate|].
      intros [(H & _) | (H & _)]; contradiction.
Qed.

Lemma needs_plugin_witness :
  exists needs,
    Sys.outcome
      (Sys.interp
         (fun c =>
            match c with
            | Sys.exists_ path =>
                Sys.Fulfilled
                  (Sys.VBool (String.eqb path "C:\Program Files (x86)\WinFsp"))
            | _ => Sys.Fulfilled Sys.VUndefined
            end)
         (Mount.needsMountPlugin "windows") 0)
    = Returned needs
    /\ needs = false.
Proof.
  destruct (needs_plugin "windows"
              (fun path => String.eqb path "C:\Program Files (x86)\WinFsp")
              (fun c =>
                 match c with
                 | Sys.exists_ path =>
                     Sys.Fulfilled
                       (Sys.VBool (String.eqb path "C:\Program Files (x86)\WinFsp"))
                 | _ => Sys.Fulfilled Sys.VUndefined
                 end) 0 (fun path => eq_refl))
    as (needs & Hout & Hiff & _).
  exists needs. split; [exact Hout|].
  destruct needs; [|reflexivity].
  destruct (proj1 Hiff eq_refl) as [(H & _) | (_ & _ & H)]; discriminate H.
Defined.

(** On Windows the second folder is looked at only when WinFsp is not in
    the first. *)
Example windows_first_folder (env : Sys.Call -> Sys.Settled) (n : nat) :
  env (Sys.exists_ "C:\Program Files\WinFsp") = Sys.Fulfilled (Sys.VBool true) ->
  Sys.calls (Sys.interp env (Mount.needsMountPlugin "windows") n)
  = [Sys.exists_ "C:\Program Files\WinFsp"].
Proof.
  intros H. cbn. rewrite H. reflexivity.
Qed.

Ltac env_cases H env :=
  repeat (first
            [ match type of H with
              | context [match env ?c with _ => _ end] =>
                  let E := fresh "E" in
                  destruct (env c) as [[?|?|?|?|?|?|?|]|?] eqn:E
              end
            | match type of H with
              | context [match ?x with _ => _ end] => is_var x; destruct x
              end ];
          cbn [Sys.awaitBool Sys.awaitString Sys.awaitBytes Sys.awaitResponse
               Sys.awaitVoid Sys.bind Sys.interp Sys.didCall Sys.outcome
               Sys.calls Sys.variable] in H).

Ltac in_calls H :=
  cbn [In] in H;
  repeat match type of H with
         | _ \/ _ => destruct H as [H|H]
         end;
  try discriminate H; try contradiction.

Lemma installer_cases (currentPlatform : string) :
  (currentPlatform = "macos"
   /\ Mount.installerOf currentPlatform
      = Some (Mount.fuseDialog, Mount.fuseInstallerUrl, "fuse-t-installer.pkg"))
  \/ (currentPlatform = "windows"
      /\ Mount.installerOf currentPlatform
         = Some (Mount.winFspDialog, Mount.winFspInstallerUrl, "winfsp-installer.msi"))
  \/ (Mount.installerOf currentPlatform = None
      /\ Mount.dialogGetMountPlugin currentPlatform = Sys.Ret tt).
Proof.
  unfold Mount.installerOf, Mount.dialogGetMountPlugin.
  destruct (String.eqb currentPlatform "macos") eqn:Emac.
  - left. apply String.eqb_eq in Emac. auto.
  - destruct (String.eqb currentPlatform "windows") eqn:Ewin.
    + right. left. apply String.eqb_eq in Ewin. auto.
    + right. right. auto.
Qed.

(** X17: a file is written only for a confirmed, completed download.
    Whatever the environment answers, when [dialogGetMountPlugin] writes a
    file, the platform has an installer, the user confirmed its dialog, the
    file is the installer's name in the download directory, and the data are
    the whole body received from the installer's address. *)
Theorem written_means_downloaded (currentPlatform : string)
    (env : Sys.Call -> Sys.Settled) (n : nat) (path : string) (data : list Byte.byte) :
  In (Sys.writeFile path data)
     (Sys.calls (Sys.interp env (Mount.dialogGetMountPlugin currentPlatform) n)) ->
  exists dialog url fileName dir response,
    Mount.installerOf currentPlatform = Some (dialog, url, fileName)
    /\ env dialog = Sys.Fulfilled (Sys.VBool true)
    /\ env Sys.downloadDir = Sys.Fulfilled (Sys.VString dir)
    /\ env (Sys.fetch url) = Sys.Fulfilled (Sys.VResponse response)
    /\ env (Sys.arrayBuffer response) = Sys.Fulfilled (Sys.VBytes data)
    /\ path = (dir ++ "/" ++ fileName)%string.
Proof.
  intros H.
  destruct (installer_cases currentPlatform) as [[-> Hi] | [[-> Hi] | [_ Hnone]]].
  - rewrite Hi. unfold Mount.dialogGetMountPlugin, Mount.download in H.
    cbn [String.eqb Ascii.eqb Bool.eqb Sys.awaitBool Sys.bind Sys.interp Sys.didCall
         Sys.calls] in H.
    env_cases H env; in_calls H;
      injection H as <- <-; do 5 eexists;
      repeat split; try eassumption; reflexivity.
  - rewrite Hi. unfold Mount.dialogGetMountPlugin, Mount.download in H.
    cbn [String.eqb Ascii.eqb Bool.eqb Sys.awaitBool Sys.bind Sys.interp Sys.didCall
         Sys.calls] in H.
    env_cases H env; in_calls H;
      injection H as <- <-; do 5 eexists;
      repeat split; try eassumption; reflexivity.
  - rewrite Hnone in H. cbn in H. contradiction.
Qed.

Lemma written_means_downloaded_witness :
  exists dialog url fileName dir response,
    Mount.installerOf "macos" = Some (dialog, url, fileName)
    /\ confirmingEnv dialog = Sys.Fulfilled (Sys.VBool true)
    /\ confirmingEnv Sys.downloadDir = Sys.Fulfilled (Sys.VString dir)
    /\ confirmingEnv (Sys.fetch url) = Sys.Fulfilled (Sys.VResponse response)
    /\ confirmingEnv (Sys.arrayBuffer response)
       = Sys.Fulfilled (Sys.VBytes [Byte.x4e; Byte.x6f])
    /\ "/home/me/Downloads/fuse-t-installer.pkg" = (dir ++ "/" ++ fileName)%string.
Proof.
  apply (written_means_downloaded "macos" confirmingEnv 0
           "/home/me/Downloads/fuse-t-installer.pkg" [Byte.x4e; Byte.x6f]).
  cbn. auto 10.
Defined.

(** X18: the download, when all goes well.  The user confirms and every
    call is fulfilled: the calls are, in this order, the dialog, the download
    directory, the installer's address, its body, the file written with that
    body under the installer's name, and the same file revealed.  The
    response is passed on as it is: its status is never looked at. *)
Theorem download_flow (currentPlatform : string) (env : Sys.Call -> Sys.Settled)
    (n : nat) (dialog : Sys.Call) (url fileName dir : string)
    (response : Sys.Response) (data : list Byte.byte) :
  Mount.installerOf currentPlatform = Some (dialog, url, fileName) ->
  env dialog = Sys.Fulfilled (Sys.VBool true) ->
  env Sys.downloadDir = Sys.Fulfilled (Sys.VString dir) ->
  env (Sys.fetch url) = Sys.Fulfilled (Sys.VResponse response) ->
  env (Sys.arrayBuffer response) = Sys.Fulfilled (Sys.VBytes data) ->
  (exists v, env (Sys.writeFile (dir ++ "/" ++ fileName) data) = Sys.Fulfilled v) ->
  (exists v, env (Sys.revealItemInDir (dir ++ "/" ++ fileName)) = Sys.Fulfilled v) ->
  Sys.outcome (Sys.interp env (Mount.dialogGetMountPlugin currentPlatform) n)
  = Returned tt
  /\ Sys.calls (Sys.interp env (Mount.dialogGetMountPlugin currentPlatform) n)
     = [dialog; Sys.downloadDir; Sys.fetch url; Sys.arrayBuffer response;
        Sys.writeFile (dir ++ "/" ++ fileName) data;
        Sys.revealItemInDir (dir ++ "/" ++ fileName)].
Proof.
  intros Hi Hask Hdir Hfetch Hbody [v1 Hwrite] [v2 Hreveal].
  destruct (installer_cases currentPlatform) as [[-> Hi'] | [[-> Hi'] | [Hnone _]]];
    rewrite ?Hnone, ?Hi' in Hi; try discriminate Hi;
    injection Hi as <- <- <-;
    unfold Mount.dialogGetMountPlugin, Mount.download;
    cbn [String.eqb Ascii.eqb Bool.eqb Sys.awaitBool Sys.awaitString Sys.awaitBytes
         Sys.awaitResponse Sys.awaitVoid Sys.bind Sys.interp Sys.didCall
         Sys.outcome Sys.calls];
    rewrite Hask; cbn [Sys.bind Sys.interp Sys.didCall Sys.outcome Sys.calls];
    rewrite Hdir; cbn [Sys.bind Sys.interp Sys.didCall Sys.outcome Sys.calls];
    rewrite Hfetch; cbn [Sys.bind Sys.interp Sys.didCall Sys.outcome Sys.calls];
    rewrite Hbody; cbn [Sys.bind Sys.interp Sys.didCall Sys.outcome Sys.calls];
    rewrite Hwrite; cbn [Sys.bind Sys.interp Sys.didCall Sys.outcome Sys.calls
                         Sys.awaitVoid];
    rewrite Hreveal; cbn; split; reflexivity.
Qed.

Lemma download_flow_witness :
  Sys.outcome (Sys.interp confirmingEnv (Mount.dialogGetMountPlugin "windows") 0)
  = Returned tt
  /\ Sys.calls (Sys.interp confirmingEnv (Mount.dialogGetMountPlugin "windows") 0)
     = [Mount.winFspDialog; Sys.downloadDir; Sys.fetch Mount.winFspInstallerUrl;
        Sys.arrayBuffer {| Sys.status := 404; Sys.ok := false |};
        Sys.writeFile "/home/me/Downloads/winfsp-installer.msi" [Byte.x4e; Byte.x6f];
        Sys.revealItemInDir "/home/me/Downloads/winfsp-installer.msi"].
Proof.
  apply (download_flow "windows" confirmingEnv 0 Mount.winFspDialog
           Mount.winFspInstallerUrl "winfsp-installer.msi" "/home/me/Downloads"
           {| Sys.status := 404; Sys.ok := false |} [Byte.x4e; Byte.x6f]);
    try reflexivity; eexists; reflexivity.
Defined.

(** X19: nothing is downloaded without a confirmation.  In an environment
    that never answers a dialog with yes, [dialogGetMountPlugin] returns or
    throws after at most one call, the dialog of the platform. *)
Theorem unconfirmed_calls_nothing (currentPlatform : string)
    (env : Sys.Call -> Sys.Settled) (n : nat) :
  (forall message options,
     env (Sys.ask message options) <> Sys.Fulfilled (Sys.VBool true)) ->
  Sys.calls (Sys.interp env (Mount.dialogGetMountPlugin currentPlatform) n)
  = match Mount.installerOf currentPlatform with
    | Some (dialog, _, _) => [dialog]
    | None => []
    end.
Proof.
  intros Hno.
  destruct (installer_cases currentPlatform) as [[-> Hi] | [[-> Hi] | [Hnone Hret]]].
  - rewrite Hi. unfold Mount.dialogGetMountPlugin.
    cbn [String.eqb Ascii.eqb Bool.eqb Sys.awaitBool Sys.bind Sys.interp Sys.didCall
         Sys.calls].
    pose proof (Hno _ _ : env Mount.fuseDialog <> _) as Hd.
    destruct (env Mount.fuseDialog) as [[[|]|?|?|?|?|?|?|]|?]; try reflexivity.
    now destruct Hd.
  - rewrite Hi. unfold Mount.dialogGetMountPlugin.
    cbn [String.eqb Ascii.eqb Bool.eqb Sys.awaitBool Sys.bind Sys.interp Sys.didCall
         Sys.calls].
    pose proof (Hno _ _ : env Mount.winFspDialog <> _) as Hd.
    destruct (env Mount.winFspDialog) as [[[|]|?|?|?|?|?|?|]|?]; try reflexivity.
    now destruct Hd.
  - rewrite Hnone, Hret. reflexivity.
Qed.

Lemma unconfirmed_calls_nothing_witness :
  Sys.calls (Sys.interp decliningEnv (Mount.dialogGetMountPlugin "macos") 0)
  = [Mount.fuseDialog].
Proof.
  apply (unconfirmed_calls_nothing "macos" decliningEnv 0).
  intros message options. discriminate.
Defined.

(** X20: a download that fails is not caught.  When the user confirmed and
    the installer cannot be fetched, the call throws what [fetch] threw, and
    its last call is that [fetch]: nothing is written or revealed. *)
Theorem failed_fetch_propagates (currentPlatform : string)
    (env : Sys.Call -> Sys.Settled) (n : nat) (dialog : Sys.Call)
    (url fileName dir : string) (err : Thrown) :
  Mount.installerOf currentPlatform = Some (dialog, url, fileName) ->
  env dialog = Sys.Fulfilled (Sys.VBool true) ->
  env Sys.downloadDir = Sys.Fulfilled (Sys.VString dir) ->
  env (Sys.fetch url) = Sys.Rejected err ->
  Sys.outcome (Sys.interp env (Mount.dialogGetMountPlugin currentPlatform) n)
  = Threw err
  /\ Sys.calls (Sys.interp env (Mount.dialogGetMountPlugin currentPlatform) n)
     = [dialog; Sys.downloadDir; Sys.fetch url].
Proof.
  intros Hi Hask Hdir Hfetch.
  destruct (installer_cases currentPlatform) as [[-> Hi'] | [[-> Hi'] | [Hnone _]]];
    rewrite ?Hnone, ?Hi' in Hi; try discriminate Hi;
    injection Hi as <- <- <-;
    unfold Mount.dialogGetMountPlugin, Mount.download;
    cbn [String.eqb Ascii.eqb Bool.eqb Sys.awaitBool Sys.awaitString Sys.awaitBytes
         Sys.awaitResponse Sys.awaitVoid Sys.bind Sys.interp Sys.didCall
         Sys.outcome Sys.calls];
    rewrite Hask; cbn [Sys.bind Sys.interp Sys.didCall Sys.outcome Sys.calls];
    rewrite Hdir; cbn [Sys.bind Sys.interp Sys.didCall Sys.outcome Sys.calls];
    rewrite Hfetch; cbn; split; reflexivity.
Qed.

Lemma failed_fetch_propagates_witness :
  Sys.outcome (Sys.interp offlineEnv (Mount.dialogGetMountPlugin "macos") 0)
  = Threw (Error "network unreachable")
  /\ Sys.calls (Sys.interp offlineEnv (Mount.dialogGetMountPlugin "macos") 0)
     = [Mount.fuseDialog; Sys.downloadDir; Sys.fetch Mount.fuseInstallerUrl].
Proof.
  apply (failed_fetch_propagates "macos" offlineEnv 0 Mount.fuseDialog
           Mount.fuseInstallerUrl "fuse-t-installer.pkg" "/home/me/Downloads"
           (Error "network unreachable")); reflexivity.
Defined.

End MountFacts.

(** ** The tray *)

Module TrayFacts.

Ltac sys_cbn :=
  cbn [Sys.awaitBool Sys.awaitString Sys.awaitBytes Sys.awaitResponse
       Sys.awaitTray Sys.awaitHandle Sys.awaitWindows Sys.awaitVoid
       Sys.fireAndForget Sys.bind Sys.try_catch Sys.interp Sys.didCall
       Sys.outcome Sys.calls Sys.variable].

Ltac sys_cbn_in H :=
  cbn [Sys.awaitBool Sys.awaitString Sys.awaitBytes Sys.awaitResponse
       Sys.awaitTray Sys.awaitHandle Sys.awaitWindows Sys.awaitVoid
       Sys.fireAndForget Sys.bind Sys.try_catch Sys.interp Sys.didCall
       Sys.outcome Sys.calls Sys.variable] in H.

(** Every way the environment can settle the calls met in the goal. *)
Ltac env_goal env :=
  repeat (first
            [ match goal with
              | |- context [match env ?c with _ => _ end] =>
                  let E := fresh "E" in
                  destruct (env c) as [[?|?|?|?|?|?|?|]|?] eqn:E
              end
            | match goal with
              | |- context [match ?x with _ => _ end] => is_var x; destruct x
              end ];
          sys_cbn).

Ltac in_calls H :=
  cbn [In] in H;
  repeat match type of H with
         | _ \/ _ => destruct H as [H|H]
         end;
  try discriminate H; try contradiction.

(** X21: [initTray] never throws, whatever fails; and when it creates a
    tray, that tray is the main tray with the menu that [buildMenu] returned,
    and the loading tray, if there is one, was hidden first. *)
Theorem init_tray_never_throws (env : Sys.Call -> Sys.Settled) (n : nat) :
  Sys.outcome (Sys.interp env Tray.initTray n) = Returned tt
  /\ (forall options,
        In (Sys.trayNew options) (Sys.calls (Sys.interp env Tray.initTray n)) ->
        Sys.id options = "main-tray"
        /\ env Sys.buildMenu = Sys.Fulfilled (Sys.VHandle (Sys.menu options))
        /\ (forall t,
              env (Sys.trayGetById "loading-tray") = Sys.Fulfilled (Sys.VTray (Some t)) ->
              In (Sys.traySetVisible t false)
                 (Sys.calls (Sys.interp env Tray.initTray n))
              /\ exists v, env (Sys.traySetVisible t false) = Sys.Fulfilled v)).
Proof.
  unfold Tray.initTray. sys_cbn. env_goal env;
    (split; [reflexivity|]);
    intros options Hin; in_calls Hin;
    injection Hin as <-; cbn [Sys.id Sys.menu];
    (split; [reflexivity|]); (split; [reflexivity|]);
    intros t Ht; try discriminate Ht; injection Ht as <-;
    (split; [simpl; auto 10 | eexists; eassumption]).
Qed.

Lemma init_tray_never_throws_witness :
  Sys.outcome (Sys.interp trayEnv Tray.initTray 0) = Returned tt
  /\ trayEnv Sys.buildMenu = Sys.Fulfilled (Sys.VHandle 3)
  /\ exists v, trayEnv (Sys.traySetVisible 7 false) = Sys.Fulfilled v.
Proof.
  destruct (init_tray_never_throws trayEnv 0) as [Hout Hnew].
  split; [exact Hout|].
  destruct (Hnew {| Sys.id := "main-tray";
                    Sys.icon := "icons/favicon/icon.png";
                    Sys.tooltip := Some "Rclone";
                    Sys.menu := 3;
                    Sys.menuOnLeftClick := Some true |})
    as (_ & Hmenu & Hhide); [cbn; auto 10|].
  split; [exact Hmenu|].
  exact (proj2 (Hhide 7 eq_refl)).
Defined.

(** X22: [rebuildTrayMenu] builds a menu only when the main tray
    exists, and sets it only on that tray; without the tray it returns having
    asked for the tray and nothing else. *)
Theorem rebuild_needs_tray (env : Sys.Call -> Sys.Settled) (n : nat) :
  (In Sys.buildMenu (Sys.calls (Sys.interp env Tray.rebuildTrayMenu n)) ->
   exists t, env (Sys.trayGetById "main-tray") = Sys.Fulfilled (Sys.VTray (Some t)))
  /\ (forall t m,
        In (Sys.traySetMenu t m) (Sys.calls (Sys.interp env Tray.rebuildTrayMenu n)) ->
        env (Sys.trayGetById "main-tray") = Sys.Fulfilled (Sys.VTray (Some t))
        /\ env Sys.buildMenu = Sys.Fulfilled (Sys.VHandle m))
  /\ (env (Sys.trayGetById "main-tray") = Sys.Fulfilled (Sys.VTray None) ->
      Sys.outcome (Sys.interp env Tray.rebuildTrayMenu n) = Returned tt
      /\ Sys.calls (Sys.interp env Tray.rebuildTrayMenu n)
         = [Sys.trayGetById "main-tray"]).
Proof.
  unfold Tray.rebuildTrayMenu, Tray.getMainTray. sys_cbn. env_goal env;
    (split; [intros Hin; in_calls Hin; eexists; reflexivity|]);
    (split; [intros t0 m Hin; in_calls Hin; injection Hin as <- <-;
             split; first [reflexivity | assumption]|]);
    intros Hnone; try discriminate Hnone; split; reflexivity.
Qed.

Lemma rebuild_needs_tray_witness :
  trayEnv (Sys.trayGetById "main-tray") = Sys.Fulfilled (Sys.VTray (Some 7))
  /\ trayEnv Sys.buildMenu = Sys.Fulfilled (Sys.VHandle 3).
Proof.
  apply (proj1 (proj2 (rebuild_needs_tray trayEnv 0)) 7 3). cbn. auto.
Defined.

Lemma findMain_none (labels : list string) : forall index,
  Tray.findMain index labels = None -> ~ In "main" labels.
Proof.
  induction labels as [|label labels IH]; intros index H; cbn [Tray.findMain] in H.
  - intros [].
  - destruct (String.eqb label "main") eqn:E; [discriminate|].
    intros [->|Hin].
    + rewrite String.eqb_refl in E. discriminate.
    + exact (IH _ H Hin).
Qed.

Lemma findMain_first (labels : list string) : forall index w,
  Tray.findMain index labels = Some w ->
  index <= w
  /\ nth_error labels (w - index) = Some "main"
  /\ (forall j, j < w - index -> nth_error labels j <> Some "main").
Proof.
  induction labels as [|label labels IH]; intros index w H; cbn [Tray.findMain] in H.
  - discriminate.
  - destruct (String.eqb label "main") eqn:E.
    + injection H as <-. apply String.eqb_eq in E. subst label.
      rewrite Nat.sub_diag. repeat split; [lia | intros j Hj; lia].
    + destruct (IH _ _ H) as (Hle & Hn & Hfirst).
      replace (w - index) with (S (w - S index)) by lia.
      split; [lia|]. split; [exact Hn|].
      intros [|j] Hj; cbn [nth_error].
      * intros Heq. injection Heq as ->. rewrite String.eqb_refl in E. discriminate.
      * apply Hfirst. lia.
Qed.

(** X23: [triggerTrayRebuild] tells at most one window.  Given the list of
    the windows, it emits [rebuild-tray] once, to the first window labelled
    [main], or not at all when there is none; and it returns normally even
    when the event cannot be emitted. *)
Theorem trigger_first_main (env : Sys.Call -> Sys.Settled) (n : nat)
    (labels : list string) :
  env Sys.getAllWindows = Sys.Fulfilled (Sys.VWindows labels) ->
  Sys.outcome (Sys.interp env Tray.triggerTrayRebuild n) = Returned tt
  /\ ((~ In "main" labels
       /\ Sys.calls (Sys.interp env Tray.triggerTrayRebuild n) = [Sys.getAllWindows])
      \/ (exists w,
            nth_error labels w = Some "main"
            /\ (forall j, j < w -> nth_error labels j <> Some "main")
            /\ Sys.calls (Sys.interp env Tray.triggerTrayRebuild n)
               = [Sys.getAllWindows; Sys.windowEmit w "rebuild-tray"])).
Proof.
  intros Hw. unfold Tray.triggerTrayRebuild. sys_cbn. rewrite Hw. sys_cbn.
  destruct (Tray.findMain 0 labels) as [w|] eqn:F; sys_cbn.
  - split; [reflexivity|]. right. exists w.
    destruct (findMain_first _ _ _ F) as (_ & Hn & Hfirst).
    rewrite Nat.sub_0_r in *. repeat split; assumption.
  - split; [reflexivity|]. left. split; [|reflexivity].
    exact (findMain_none _ _ F).
Qed.

Lemma trigger_first_main_witness :
  Sys.outcome (Sys.interp twoMainWindows Tray.triggerTrayRebuild 0) = Returned tt
  /\ Sys.calls (Sys.interp twoMainWindows Tray.triggerTrayRebuild 0)
     = [Sys.getAllWindows; Sys.windowEmit 1 "rebuild-tray"].
Proof.
  destruct (trigger_first_main twoMainWindows 0 ["settings"; "main"; "main"] eq_refl)
    as [Hout _].
  split; [exact Hout | reflexivity].
Defined.

(** X24: the application exits only after the user confirmed and the
    windows were told.  When the Quit item calls [exit], its code is [0], the
    user answered yes, [close-app] was emitted before and that call was
    fulfilled. *)
Theorem exit_only_after_close (env : Sys.Call -> Sys.Settled) (n : nat) (code : Z) :
  In (Sys.exit code) (Sys.calls (Sys.interp env Tray.quitAction n)) ->
  code = 0%Z
  /\ env (Sys.ask "An operation is in progress, are you sure you want to exit?" None)
     = Sys.Fulfilled (Sys.VBool true)
  /\ (exists v, env (Sys.currentWindowEmit "close-app") = Sys.Fulfilled v)
  /\ Sys.calls (Sys.interp env Tray.quitAction n)
     = [Sys.ask "An operation is in progress, are you sure you want to exit?" None;
        Sys.currentWindowEmit "close-app";
        Sys.exit 0].
Proof.
  unfold Tray.quitAction. sys_cbn. intros H. revert H. env_goal env;
    intros H; in_calls H; injection H as <-;
    repeat split; eexists; reflexivity.
Qed.

Lemma exit_only_after_close_witness :
  Sys.calls (Sys.interp quittingEnv Tray.quitAction 0)
  = [Sys.ask "An operation is in progress, are you sure you want to exit?" None;
     Sys.currentWindowEmit "close-app";
     Sys.exit 0].
Proof.
  apply (exit_only_after_close quittingEnv 0 0). cbn. auto.
Defined.

End TrayFacts.

(** ** The animation of the loading tray *)

Module AnimationFacts.

Example frame_names :
  map Tray.framePath [1; 9; 10; 17]
  = ["icons/favicon/frame_01_delay-0.1s.png";
     "icons/favicon/frame_09_delay-0.1s.png";
     "icons/favicon/frame_10_delay-0.1s.png";
     "icons/favicon/frame_17_delay-0.1s.png"].
Proof. reflexivity. Qed.

Lemma shown_range (n : nat) : 1 <= n -> 1 <= Animation.shown n <= 17.
Proof.
  intros Hn. unfold Animation.shown.
  destruct (Nat.ltb 17 n) eqn:E.
  - lia.
  - apply Nat.ltb_ge in E. lia.
Qed.

Lemma tick_good (loadingTray n : nat) :
  1 <= n -> Animation.good (Tray.tick loadingTray) n.
Proof.
  intros Hn. pose proof (shown_range n Hn) as Hs. unfold Animation.shown in Hs.
  unfold Tray.tick. cbn [Animation.good].
  destruct (Nat.ltb 17 n);
    cbn [Sys.bind Sys.awaitString Sys.awaitVoid Animation.good Tray.isFrame].
  - split; [exists 1; split; [lia | reflexivity]|].
    split; [lia|].
    intros [[]|] n1 Hn1; cbn [Sys.bind Animation.good Tray.isFrame]; try exact Hn1.
    split; [exact I|]. split; [exact Hn1|].
    intros [|] n2 Hn2; cbn [Sys.bind Animation.good]; lia.
  - split; [exists n; split; [exact Hs | reflexivity]|].
    split; [exact Hn|].
    intros [[]|] n1 Hn1; cbn [Sys.bind Animation.good Tray.isFrame]; try exact Hn1.
    split; [exact I|]. split; [exact Hn1|].
    intros [|] n2 Hn2; cbn [Sys.bind Animation.good]; lia.
Qed.

Lemma good_advance {A : Type} (p : Sys.Prog A) : forall n,
  Animation.good p n ->
  1 <= snd (Tray.advance p n)
  /\ Forall Tray.isFrame (Tray.pendingCall (fst (Tray.advance p n)))
  /\ Animation.resumable (fst (Tray.advance p n)).
Proof.
  induction p as [a|err|k IH|n' k IH|c k IH]; intros n Hp;
    cbn [Tray.advance Animation.good fst snd Tray.pendingCall Animation.resumable] in *.
  - repeat split; [exact Hp | constructor].
  - repeat split; [exact Hp | constructor].
  - apply IH. exact Hp.
  - apply IH. exact Hp.
  - destruct Hp as (Hc & Hn & Hk). split; [exact Hn|]. split; [|exact Hk].
    constructor; [exact Hc | constructor].
Qed.

Lemma Forall_replace_resumable (x : Sys.Prog unit) :
  forall (l : list (Sys.Prog unit)) (i : nat),
  Forall Animation.resumable l -> Animation.resumable x ->
  Forall Animation.resumable (replace i x l).
Proof.
  induction l as [|y l IH]; intros i Hl Hx; cbn.
  - constructor.
  - inversion Hl; subst. destruct i; constructor; auto.
Qed.

Lemma timer_step_inv (loadingTray : nat) (t t' : Tray.Timer) (e : Tray.TimerEvent) :
  Animation.timerInv t -> Tray.timerStep loadingTray t e = Some t' -> Animation.timerInv t'.
Proof.
  intros (Hn & Hreq & Hticks) H. destruct e as [|id r]; cbn [Tray.timerStep] in H.
  - pose proof (good_advance _ _ (tick_good loadingTray _ Hn)) as (H1 & H2 & H3).
    destruct (Tray.advance (Tray.tick loadingTray) (Tray.currentIcon t)) as [p n].
    injection H as <-. cbn [fst snd] in *. unfold Animation.timerInv. cbn.
    split; [exact H1|]. split; apply Forall_app; split; auto.
  - destruct (nth_error (Tray.ticks t) id) as [p|] eqn:E; [|discriminate].
    destruct p as [a|err|k|n' k|c k]; try discriminate.
    assert (Hp : Animation.resumable (Sys.Await c k)).
    { rewrite Forall_forall in Hticks. apply Hticks.
      eapply nth_error_In; eassumption. }
    cbn [Animation.resumable] in Hp.
    pose proof (good_advance _ _ (Hp r _ Hn)) as (H1 & H2 & H3).
    destruct (Tray.advance (k r) (Tray.currentIcon t)) as [p n].
    injection H as <-. cbn [fst snd] in *. unfold Animation.timerInv. cbn.
    split; [exact H1|]. split.
    + apply Forall_app. split; assumption.
    + apply Forall_replace_resumable; assumption.
Qed.

(** The invariant of the timer is kept by every sequence of events. *)
Lemma timer_steps_inv (loadingTray : nat) (es : list Tray.TimerEvent) :
  forall (t t' : Tray.Timer),
  Animation.timerInv t ->
  Tray.timerSteps loadingTray t es = Some t' ->
  Animation.timerInv t'.
Proof.
  induction es as [|e es IH]; intros t t' Hinv H; cbn [Tray.timerSteps] in H.
  - now injection H as <-.
  - destruct (Tray.timerStep loadingTray t e) as [t1|] eqn:E; [|discriminate].
    exact (IH t1 t' (timer_step_inv loadingTray t t1 e Hinv E) H).
Qed.

(** X25: the animation never leaves the seventeen frames.  From the timer
    as [initLoadingTray] leaves it, however the ticks overlap, in whichever
    order their calls are answered and however they are answered, every
    resource a tick asks for is one of the frames [frame_01] to [frame_17],
    and [currentIcon] stays positive. *)
Theorem frames_in_range (loadingTray : nat) (es : list Tray.TimerEvent)
    (t' : Tray.Timer) :
  Tray.timerSteps loadingTray Tray.newTimer es = Some t' ->
  Forall Tray.isFrame (Tray.requested t') /\ 1 <= Tray.currentIcon t'.
Proof.
  intros H.
  assert (Hinit : Animation.timerInv Tray.newTimer).
  { unfold Animation.timerInv. cbn. repeat split; [lia | constructor | constructor]. }
  destruct (timer_steps_inv loadingTray es _ _ Hinit H) as (Hn & Hreq & _).
  split; assumption.
Qed.

(** Two ticks that overlap both show frame 1; the next tick shows frame 3. *)
Lemma frames_in_range_witness :
  exists t',
    Tray.timerSteps 8 Tray.newTimer
      [Tray.Fire; Tray.Fire;
       Tray.Settle 1 (Sys.Fulfilled (Sys.VString "b"));
       Tray.Settle 0 (Sys.Fulfilled (Sys.VString "a"));
       Tray.Settle 0 (Sys.Fulfilled Sys.VUndefined);
       Tray.Settle 1 (Sys.Fulfilled Sys.VUndefined);
       Tray.Fire] = Some t'
    /\ Tray.requested t'
       = [Sys.resolveResource (Tray.framePath 1);
          Sys.resolveResource (Tray.framePath 1);
          Sys.traySetIcon 8 "b"; Sys.traySetIcon 8 "a";
          Sys.resolveResource (Tray.framePath 3)]
    /\ Forall Tray.isFrame (Tray.requested t')
    /\ 1 <= Tray.currentIcon t'.
Proof.
  eexists. split; [reflexivity|]. split; [reflexivity|].
  apply (frames_in_range 8
           [Tray.Fire; Tray.Fire;
            Tray.Settle 1 (Sys.Fulfilled (Sys.VString "b"));
            Tray.Settle 0 (Sys.Fulfilled (Sys.VString "a"));
            Tray.Settle 0 (Sys.Fulfilled Sys.VUndefined);
            Tray.Settle 1 (Sys.Fulfilled Sys.VUndefined);
            Tray.Fire]).
  reflexivity.
Defined.

Lemma mod_succ (k : nat) :
  S k mod 17 = if Nat.eqb (k mod 17) 16 then 0 else k mod 17 + 1.
Proof.
  pose proof (Nat.div_mod_eq k 17) as Hk.
  pose proof (Nat.mod_upper_bound k 17 ltac:(lia)) as Hlt.
  destruct (Nat.eqb (k mod 17) 16) eqn:E.
  - apply Nat.eqb_eq in E. symmetry.
    apply (Nat.mod_unique (S k) 17 (S (k / 17)) 0); lia.
  - apply Nat.eqb_neq in E. symmetry.
    apply (Nat.mod_unique (S k) 17 (k / 17) (k mod 17 + 1)); lia.
Qed.

Section InTurn.

Variable loadingTray : nat.
Variable env : Sys.Call -> Sys.Settled.
Variable resolved : string -> string.

Hypothesis resolves :
  forall path, env (Sys.resolveResource path) = Sys.Fulfilled (Sys.VString (resolved path)).
Hypothesis sets :
  forall tray icon, exists v, env (Sys.traySetIcon tray icon) = Sys.Fulfilled v.

(** One tick run to its end: it shows the frame it finds, or frame 1 when
    the number it finds is above 17, and leaves the number one above the
    frame shown. *)
Lemma tick_alone (n : nat) :
  Sys.interp env (Tray.tick loadingTray) n
  = {| Sys.outcome := Returned tt;
       Sys.calls := Animation.showFrame loadingTray resolved (Animation.shown n);
       Sys.variable := Animation.shown n + 1 |}.
Proof.
  unfold Tray.tick, Animation.shown, Animation.showFrame.
  cbn [Sys.interp].
  destruct (Nat.ltb 17 n);
    cbn [Sys.bind Sys.awaitString Sys.awaitVoid Sys.interp Sys.didCall];
    rewrite resolves;
    cbn [Sys.bind Sys.awaitString Sys.awaitVoid Sys.interp Sys.didCall];
    match goal with
    | |- context [env (Sys.traySetIcon ?t ?i)] =>
        destruct (sets t i) as [v Hv]; rewrite Hv
    end;
    reflexivity.
Qed.

Lemma in_turn_from (count : nat) : forall start n,
  Animation.shown n = start mod 17 + 1 ->
  fst (Tray.ticksInTurn env loadingTray count n)
  = flat_map (fun k => Animation.showFrame loadingTray resolved (k mod 17 + 1))
      (seq start count).
Proof.
  induction count as [|count IH]; intros start n Hn; cbn [Tray.ticksInTurn seq flat_map].
  - reflexivity.
  - rewrite tick_alone. cbn [Sys.calls Sys.variable].
    assert (Hnext : Animation.shown (Animation.shown n + 1) = S start mod 17 + 1).
    { rewrite Hn, mod_succ. unfold Animation.shown.
      pose proof (Nat.mod_upper_bound start 17 ltac:(lia)) as Hlt.
      destruct (Nat.eqb (start mod 17) 16) eqn:E.
      - apply Nat.eqb_eq in E. rewrite E. reflexivity.
      - apply Nat.eqb_neq in E.
        destruct (Nat.ltb 17 (start mod 17 + 1 + 1)) eqn:L.
        + apply Nat.ltb_lt in L. lia.
        + lia. }
    specialize (IH (S start) _ Hnext).
    destruct (Tray.ticksInTurn env loadingTray count (Animation.shown n + 1))
      as [later n'].
    cbn [fst] in *. rewrite IH, Hn. reflexivity.
Qed.

(** X26: the animation in turn.  When each tick ends before the next
    starts and its calls are fulfilled, the ticks show the frames 1 to 17
    over and over: the tick of rank [k], counted from 0, asks for frame
    [k mod 17 + 1] and sets it as the icon of the loading tray.  Frame 0, the
    first icon of the tray, is never shown again. *)
Theorem animation_cycles (count : nat) :
  fst (Tray.ticksInTurn env loadingTray count (Tray.currentIcon Tray.newTimer))
  = flat_map (fun k => Animation.showFrame loadingTray resolved (k mod 17 + 1))
      (seq 0 count).
Proof.
  apply in_turn_from. reflexivity.
Qed.

End InTurn.

Lemma animation_cycles_witness :
  fst (Tray.ticksInTurn Tray.allFulfilled 8 19 1)
  = flat_map (fun k => Animation.showFrame 8 (fun path => path) (k mod 17 + 1))
      (seq 0 19).
Proof.
  apply (animation_cycles 8 Tray.allFulfilled (fun path => path)).
  - intros path. reflexivity.
  - intros tray icon. eexists. reflexivity.
Defined.

Ltac sys_cbn_in H :=
  cbn [Sys.awaitBool Sys.awaitString Sys.awaitBytes Sys.awaitResponse
       Sys.awaitTray Sys.awaitHandle Sys.awaitWindows Sys.awaitVoid
       Sys.fireAndForget Sys.bind Sys.try_catch Sys.interp Sys.didCall
       Sys.outcome Sys.calls Sys.variable] in H.

Ltac env_hyp H env :=
  repeat (first
            [ match type of H with
              | context [match env ?c with _ => _ end] =>
                  let E := fresh "E" in
                  destruct (env c) as [[?|?|?|?|?|?|?|]|?] eqn:E
              end ];
          sys_cbn_in H).

(** X27: the timer of the loading tray.  On Linux [initLoadingTray] calls
    nothing.  Elsewhere the timer is started only once the tray exists: when
    [setInterval] is called, its period is 200 ms, the first frame was
    resolved, the Quit item and the menu holding it were created, the tray
    [loading-tray] was created with that icon and menu, and [currentIcon] is
    1. *)
Theorem timer_needs_tray (currentPlatform : string) (env : Sys.Call -> Sys.Settled)
    (n milliseconds : nat) :
  In (Sys.setInterval milliseconds)
     (Sys.calls (Sys.interp env (Tray.initLoadingTray currentPlatform) n)) ->
  milliseconds = 200
  /\ currentPlatform <> "linux"
  /\ Sys.variable (Sys.interp env (Tray.initLoadingTray currentPlatform) n) = 1
  /\ exists icon item menu tray,
       env (Sys.resolveResource "icons/favicon/frame_00_delay-0.1s.png")
       = Sys.Fulfilled (Sys.VString icon)
       /\ env (Sys.menuItemNew "quit-loading" "Quit") = Sys.Fulfilled (Sys.VHandle item)
       /\ env (Sys.menuNew "main-menu" [item]) = Sys.Fulfilled (Sys.VHandle menu)
       /\ env (Sys.trayNew {| Sys.id := "loading-tray";
                              Sys.icon := icon;
                              Sys.tooltip := None;
                              Sys.menu := menu;
                              Sys.menuOnLeftClick := None |})
          = Sys.Fulfilled (Sys.VHandle tray).
Proof.
  unfold Tray.initLoadingTray. intros H.
  destruct (String.eqb currentPlatform "linux") eqn:Elinux.
  - cbn in H. contradiction.
  - apply String.eqb_neq in Elinux. sys_cbn_in H.
    env_hyp H env; TrayFacts.in_calls H;
      injection H as <-;
      (split; [reflexivity|]); (split; [exact Elinux|]);
      (split;
       [TrayFacts.sys_cbn;
        repeat (match goal with
                | E : env ?c = _ |- _ => rewrite E
                end; TrayFacts.sys_cbn);
        reflexivity|]);
      do 4 eexists; repeat split; eassumption.
Qed.

Lemma timer_needs_tray_witness :
  Sys.variable (Sys.interp trayEnv (Tray.initLoadingTray "macos") 0) = 1
  /\ Sys.calls (Sys.interp trayEnv (Tray.initLoadingTray "linux") 0) = [].
Proof.
  split; [|reflexivity].
  apply (timer_needs_tray "macos" trayEnv 0 200). cbn. auto 10.
Defined.

End AnimationFacts.
